(** * Customer-service chat client: stream reassembly, reference
      extraction and message store

    A shallow embedding of the client-side logic of the repository:
    - [frontend/src/components/ChatInterface.vue]: [checkHasReferences],
      [extractReferences], [parseReferences], [handleStreamMessage];
    - [frontend/src/utils/websocket.ts]: class [WebSocketManager];
    - [frontend/src/stores/chat.ts]: the pinia store [useChatStore].

    JavaScript strings are sequences of UTF-16 code units; they are modelled
    as [list N], one number per code unit. *)

From Stdlib Require Import NArith List Ascii String Lia Sorted.
From stdpp Require Import gmap list.
Import ListNotations.

Local Open Scope N_scope.
Local Open Scope list_scope.

Abbreviation jsstring := (list N).

(** An ASCII literal as a JavaScript string. *)
Definition lit (s : string) : jsstring :=
  map N_of_ascii (list_ascii_of_string s).

(** [interface Reference] of [types/chat.ts] (and of [websocket.ts]). *)
Record Reference := {
  source : jsstring;
  content_preview : jsstring
}.

(** ** String primitives used by the sources *)

Module JsString.

(** The code unit of ['\n']. *)
Definition LF : N := 10.

(** [s.split(sep)] for a separator of one code unit. The result is never
    empty: the empty string splits into one empty piece. *)
Fixpoint split (sep : N) (s : jsstring) : list jsstring :=
  match s with
  | [] => [[]]
  | c :: s' =>
      if N.eqb c sep then [] :: split sep s'
      else match split sep s' with
           | l :: ls => (c :: l) :: ls
           | [] => [[c]]
           end
  end.

(** [pieces.join(sep)]. *)
Fixpoint join (sep : jsstring) (pieces : list jsstring) : jsstring :=
  match pieces with
  | [] => []
  | l :: rest =>
      match rest with
      | [] => l
      | _ :: _ => l ++ sep ++ join sep rest
      end
  end.

Fixpoint startsWith (s p : jsstring) {struct p} : bool :=
  match p, s with
  | [], _ => true
  | _ :: _, [] => false
  | a :: p', b :: s' => N.eqb a b && startsWith s' p'
  end.

(** [s.includes(p)]: [p] occurs in [s] as a contiguous run. *)
Fixpoint includes (s p : jsstring) : bool :=
  startsWith s p ||
  match s with
  | [] => false
  | _ :: s' => includes s' p
  end.

(** JavaScript truthiness of a string: non-empty. *)
Definition truthy (s : jsstring) : bool :=
  match s with [] => false | _ :: _ => true end.

End JsString.

(** ** A backtracking matcher for the regular expressions of the sources

    The only regular expression of the modelled code is a sequence of
    character classes, each taken once or under a greedy [+] or [*], some of
    them captured, behind a [^] anchor.  The matcher follows the
    ECMAScript backtracking order: a greedy repetition first takes the
    longest run and gives characters back one at a time. *)

Module Regex.

Inductive quant := One | Plus | Star.

Inductive item :=
| Bol                                           (* ^ (no multiline flag) *)
| Rep (cls : N -> bool) (q : quant) (cap : bool).

Definition q_min (q : quant) : nat :=
  match q with Star => 0%nat | _ => 1%nat end.

Definition q_max (q : quant) (run : nat) : nat :=
  match q with One => Nat.min 1 run | _ => run end.

(** Length of the longest prefix of [s] inside the class. *)
Fixpoint run_len (cls : N -> bool) (s : jsstring) : nat :=
  match s with
  | c :: s' => if cls c then S (run_len cls s') else 0%nat
  | [] => 0%nat
  end.

(** The first success of [f k], for [k] going from [hi] down to [lo]. *)
Fixpoint first_down {A} (f : nat -> option A) (lo hi : nat) : option A :=
  if Nat.ltb hi lo then None
  else match f hi with
       | Some r => Some r
       | None => match hi with
                 | O => None
                 | S hi' => first_down f lo hi'
                 end
       end.

(** Matches [its] at the head of [s]; [at_start] tells whether the head
    of [s] is the start of the whole input.  Returns the number of code
    units consumed and the captures in group order. *)
Fixpoint m_items (its : list item) (at_start : bool) (s : jsstring)
  : option (nat * list jsstring) :=
  match its with
  | [] => Some (0%nat, [])
  | Bol :: r => if at_start then m_items r at_start s else None
  | Rep cls q cap :: r =>
      first_down
        (fun k =>
           match m_items r (at_start && Nat.eqb k 0) (drop k s) with
           | Some (n, caps) =>
               Some ((k + n)%nat, if cap then take k s :: caps else caps)
           | None => None
           end)
        (q_min q) (q_max q (run_len cls s))
  end.

(** [RegExp.prototype.exec] without the global flag: the leftmost start
    position with a match.  The result is the array
    [whole; group 1; group 2; ...]. *)
Fixpoint exec_from (its : list item) (at_start : bool) (s : jsstring)
  : option (list jsstring) :=
  match m_items its at_start s with
  | Some (n, caps) => Some (take n s :: caps)
  | None =>
      match s with
      | [] => None
      | _ :: s' => exec_from its false s'
      end
  end.

Definition exec (its : list item) (s : jsstring) : option (list jsstring) :=
  exec_from its true s.

(** Character classes (no [u] and no [s] flag: code units). *)
Definition is_char (c : N) : N -> bool := N.eqb c.

Definition digit (c : N) : bool := (48 <=? c) && (c <=? 57).

Definition line_terminator (c : N) : bool :=
  (c =? 10) || (c =? 13) || (c =? 8232) || (c =? 8233).

(** [\s]: WhiteSpace and LineTerminator of ECMAScript. *)
Definition space (c : N) : bool :=
  ((9 <=? c) && (c <=? 13)) || (c =? 32) || (c =? 160) || (c =? 5760)
  || ((8192 <=? c) && (c <=? 8202)) || (c =? 8232) || (c =? 8233)
  || (c =? 8239) || (c =? 8287) || (c =? 12288) || (c =? 65279).

(** [.] *)
Definition dot (c : N) : bool := negb (line_terminator c).

End Regex.

(** ** utils/websocket.ts: class WebSocketManager *)

Module Websocket.
Import JsString.

(** [interface WebSocketMessage]; an optional field is an [option]. *)
Module Msg.
Record t := mk {
  type : jsstring;
  content : option jsstring;
  message : option jsstring;
  sender : option jsstring;
  timestamp : jsstring;
  has_references : option bool;
  references : option (list Reference);
  is_stream : option bool;
  stream_id : option jsstring;
  chunk_index : option Z;
  total_chunks : option Z;
  is_final : option bool
}.
End Msg.

(** An entry of the [streamMessages] map. *)
Module Buf.
Record t := mk {
  content : jsstring;
  chunks : Z;
  totalChunks : Z;
  references : list Reference;
  hasReferences : bool;
  lastUpdate : N
}.
End Buf.

Inductive ConnectionStatus :=
  connecting | connected | disconnected | reconnecting | error.

Inductive ReadyState := CONNECTING | OPEN | CLOSING | CLOSED.

(** The argument of [ws.onmessage]: text that [JSON.parse] rejects, or the
    message it yields. *)
Inductive frame_data :=
| Malformed
| Parsed (m : Msg.t).

(** The object handed to [ws.send] (through [JSON.stringify]);
    [env_timestamp] is the instant that [toISOString] renders. *)
Record Envelope := {
  env_type : jsstring;
  env_content : jsstring;
  env_timestamp : N;
  enable_multi_agent : bool
}.

(** What a pending [setTimeout] callback does. *)
Inductive timer_action :=
| ReconnectTick                          (* the callback of scheduleReconnect *)
| DeleteStream (stream_id : jsstring).   (* the callback of stream_end *)

Record timer := {
  tid : nat;
  due : N;
  action : timer_action
}.

(** Calls that leave the manager: listener callbacks (a listener is named
    by a number), the socket API, timers and the promise of [connect]. *)
Inductive effect :=
| StatusCall (listener : nat) (status : ConnectionStatus)
| MessageCall (listener : nat) (m : Msg.t)
| ErrorCall (listener : nat)
| StreamCall (listener : nat) (messageId content : jsstring)
             (isComplete : bool)
| NewWebSocket (token : jsstring)
| SocketSend (e : Envelope)
| SocketClose (code : N)
| SetTimeout (id : nat) (delay : N) (a : timer_action)
| ClearTimeout (id : nat)
| Resolve
| Reject.

(** The fields of the manager, followed by the event loop around it: the
    clock of [Date.now], the pending timers ordered by due time, the next
    timer handle, whether [new WebSocket] and [ws.send] throw, and the
    calls made so far.  [ws] holds the [readyState] of the socket. *)
Record World := mkWorld {
  ws : option ReadyState;
  token : jsstring;
  reconnectAttempts : N;
  reconnectTimer : option nat;
  heartbeatTimer : option nat;
  statusListeners : list nat;
  messageListeners : list nat;
  errorListeners : list nat;
  streamListeners : list nat;
  streamMessages : gmap jsstring Buf.t;
  now : N;
  timers : list timer;
  nextTimer : nat;
  ctorThrows : bool;
  sendThrows : bool;
  trace : list effect
}.

(** How a call that may throw ends. *)
Inductive outcome (A : Type) :=
| Returned (a : A)
| Thrown.
Arguments Returned {A} a.
Arguments Thrown {A}.

Definition maxReconnectAttempts : N := 5.
Definition reconnectInterval : N := 3000.
Definition heartbeatInterval : N := 30000.
Definition graceWindow : N := 5000.

Definition set_ws (v : option ReadyState) (w : World) : World :=
  mkWorld v (token w) (reconnectAttempts w) (reconnectTimer w)
    (heartbeatTimer w) (statusListeners w) (messageListeners w)
    (errorListeners w) (streamListeners w) (streamMessages w) (now w)
    (timers w) (nextTimer w) (ctorThrows w) (sendThrows w) (trace w).

Definition set_token (v : jsstring) (w : World) : World :=
  mkWorld (ws w) v (reconnectAttempts w) (reconnectTimer w)
    (heartbeatTimer w) (statusListeners w) (messageListeners w)
    (errorListeners w) (streamListeners w) (streamMessages w) (now w)
    (timers w) (nextTimer w) (ctorThrows w) (sendThrows w) (trace w).

Definition set_reconnectAttempts (v : N) (w : World) : World :=
  mkWorld (ws w) (token w) v (reconnectTimer w) (heartbeatTimer w)
    (statusListeners w) (messageListeners w) (errorListeners w)
    (streamListeners w) (streamMessages w) (now w) (timers w)
    (nextTimer w) (ctorThrows w) (sendThrows w) (trace w).

Definition set_reconnectTimer (v : option nat) (w : World) : World :=
  mkWorld (ws w) (token w) (reconnectAttempts w) v (heartbeatTimer w)
    (statusListeners w) (messageListeners w) (errorListeners w)
    (streamListeners w) (streamMessages w) (now w) (timers w)
    (nextTimer w) (ctorThrows w) (sendThrows w) (trace w).

Definition set_heartbeatTimer (v : option nat) (w : World) : World :=
  mkWorld (ws w) (token w) (reconnectAttempts w) (reconnectTimer w) v
    (statusListeners w) (messageListeners w) (errorListeners w)
    (streamListeners w) (streamMessages w) (now w) (timers w)
    (nextTimer w) (ctorThrows w) (sendThrows w) (trace w).

Definition set_statusListeners (v : list nat) (w : World) : World :=
  mkWorld (ws w) (token w) (reconnectAttempts w) (reconnectTimer w)
    (heartbeatTimer w) v (messageListeners w) (errorListeners w)
    (streamListeners w) (streamMessages w) (now w) (timers w)
    (nextTimer w) (ctorThrows w) (sendThrows w) (trace w).

Definition set_messageListeners (v : list nat) (w : World) : World :=
  mkWorld (ws w) (token w) (reconnectAttempts w) (reconnectTimer w)
    (heartbeatTimer w) (statusListeners w) v (errorListeners w)
    (streamListeners w) (streamMessages w) (now w) (timers w)
    (nextTimer w) (ctorThrows w) (sendThrows w) (trace w).

Definition set_errorListeners (v : list nat) (w : World) : World :=
  mkWorld (ws w) (token w) (reconnectAttempts w) (reconnectTimer w)
    (heartbeatTimer w) (statusListeners w) (messageListeners w) v
    (streamListeners w) (streamMessages w) (now w) (timers w)
    (nextTimer w) (ctorThrows w) (sendThrows w) (trace w).

Definition set_streamListeners (v : list nat) (w : World) : World :=
  mkWorld (ws w) (token w) (reconnectAttempts w) (reconnectTimer w)
    (heartbeatTimer w) (statusListeners w) (messageListeners w)
    (errorListeners w) v (streamMessages w) (now w) (timers w)
    (nextTimer w) (ctorThrows w) (sendThrows w) (trace w).

Definition set_streamMessages (v : gmap jsstring Buf.t) (w : World) : World :=
  mkWorld (ws w) (token w) (reconnectAttempts w) (reconnectTimer w)
    (heartbeatTimer w) (statusListeners w) (messageListeners w)
    (errorListeners w) (streamListeners w) v (now w) (timers w)
    (nextTimer w) (ctorThrows w) (sendThrows w) (trace w).

Definition set_now (v : N) (w : World) : World :=
  mkWorld (ws w) (token w) (reconnectAttempts w) (reconnectTimer w)
    (heartbeatTimer w) (statusListeners w) (messageListeners w)
    (errorListeners w) (streamListeners w) (streamMessages w) v
    (timers w) (nextTimer w) (ctorThrows w) (sendThrows w) (trace w).

Definition set_timers (v : list timer) (w : World) : World :=
  mkWorld (ws w) (token w) (reconnectAttempts w) (reconnectTimer w)
    (heartbeatTimer w) (statusListeners w) (messageListeners w)
    (errorListeners w) (streamListeners w) (streamMessages w) (now w) v
    (nextTimer w) (ctorThrows w) (sendThrows w) (trace w).

Definition set_nextTimer (v : nat) (w : World) : World :=
  mkWorld (ws w) (token w) (reconnectAttempts w) (reconnectTimer w)
    (heartbeatTimer w) (statusListeners w) (messageListeners w)
    (errorListeners w) (streamListeners w) (streamMessages w) (now w)
    (timers w) v (ctorThrows w) (sendThrows w) (trace w).

Definition set_trace (v : list effect) (w : World) : World :=
  mkWorld (ws w) (token w) (reconnectAttempts w) (reconnectTimer w)
    (heartbeatTimer w) (statusListeners w) (messageListeners w)
    (errorListeners w) (streamListeners w) (streamMessages w) (now w)
    (timers w) (nextTimer w) (ctorThrows w) (sendThrows w) v.

Definition emit (es : list effect) (w : World) : World :=
  set_trace (trace w ++ es) w.

(** JavaScript [a || b] on an optional string, number, boolean. *)
Definition or_str (a : option jsstring) (b : jsstring) : jsstring :=
  match a with
  | Some s => if truthy s then s else b
  | None => b
  end.

Definition or_num (a : option Z) (b : Z) : Z :=
  match a with
  | Some n => if Z.eqb n 0 then b else n
  | None => b
  end.

Definition or_bool (a : option bool) (b : bool) : bool :=
  match a with
  | Some true => true
  | _ => b
  end.

Definition truthy_opt (a : option jsstring) : bool :=
  match a with Some s => truthy s | None => false end.

Definition str_eqb (a b : jsstring) : bool := bool_decide (a = b).

(** *** Timers of the event loop *)

Fixpoint insertTimer (t : timer) (q : list timer) : list timer :=
  match q with
  | [] => [t]
  | t' :: q' =>
      if due t' <=? due t then t' :: insertTimer t q' else t :: t' :: q'
  end.

(** [setTimeout(callback, delay)]: returns the handle. *)
Definition setTimeout (a : timer_action) (delay : N) (w : World)
  : nat * World :=
  let id := nextTimer w in
  let t := {| tid := id; due := now w + delay; action := a |} in
  (id, emit [SetTimeout id delay a]
         (set_nextTimer (S id) (set_timers (insertTimer t (timers w)) w))).

Definition clearTimeout (id : nat) (w : World) : World :=
  emit [ClearTimeout id]
    (set_timers (List.filter (fun t => negb (Nat.eqb (tid t) id)) (timers w)) w).

(** *** Listener registration *)

Definition onStatusChange (callback : nat) (w : World) : World :=
  set_statusListeners (statusListeners w ++ [callback]) w.

Definition onMessage (callback : nat) (w : World) : World :=
  set_messageListeners (messageListeners w ++ [callback]) w.

Definition onError (callback : nat) (w : World) : World :=
  set_errorListeners (errorListeners w ++ [callback]) w.

Definition onStreamMessage (callback : nat) (w : World) : World :=
  set_streamListeners (streamListeners w ++ [callback]) w.

Definition removeListeners (w : World) : World :=
  set_streamMessages ∅
    (set_streamListeners []
       (set_errorListeners []
          (set_messageListeners [] (set_statusListeners [] w)))).

Definition updateStatus (status : ConnectionStatus) (w : World) : World :=
  emit (map (fun callback => StatusCall callback status) (statusListeners w)) w.

Definition isConnected (w : World) : bool :=
  match ws w with Some OPEN => true | _ => false end.

Definition getReconnectAttempts (w : World) : N := reconnectAttempts w.

(** *** Heartbeat: the interval callback has an empty body, so only the
    handle is kept. *)

Definition stopHeartbeat (w : World) : World :=
  match heartbeatTimer w with
  | Some _ => set_heartbeatTimer None w
  | None => w
  end.

Definition startHeartbeat (w : World) : World :=
  let w := stopHeartbeat w in
  set_nextTimer (S (nextTimer w)) (set_heartbeatTimer (Some (nextTimer w)) w).

(** *** connect, and the handlers it installs *)

(** [new WebSocket(url)]; the url is built from the token. *)
Definition newWebSocket (tok : jsstring) (w : World) : outcome World :=
  if ctorThrows w then Thrown
  else Returned (emit [NewWebSocket tok] (set_ws (Some CONNECTING) w)).

Definition connect (tok : jsstring) (w : World) : World :=
  if isConnected w then emit [Resolve] w
  else
    let w := updateStatus connecting (set_token tok w) in
    match newWebSocket tok w with            (* try *)
    | Returned w => w
    | Thrown => emit [Reject] (updateStatus error w)   (* catch *)
    end.

Definition scheduleReconnect (w : World) : World :=
  let w := set_reconnectAttempts (reconnectAttempts w + 1) w in
  let w := updateStatus reconnecting w in
  let '(id, w) :=
    setTimeout ReconnectTick (reconnectInterval * reconnectAttempts w) w in
  set_reconnectTimer (Some id) w.

Definition stopReconnect (w : World) : World :=
  let w := match reconnectTimer w with
           | Some id => set_reconnectTimer None (clearTimeout id w)
           | None => w
           end in
  set_reconnectAttempts 0 w.

(** The handlers that [connect] installs on the socket it creates:
    closures over the manager, which never look at the socket.  They stay
    on their socket when the manager replaces it ([connect] while the
    socket is not open, [reconnect]) or drops it ([disconnect]). *)
Definition openHandler (w : World) : World :=
  let w := set_reconnectAttempts 0 w in
  let w := updateStatus connected w in
  let w := startHeartbeat w in
  emit [Resolve] w.

Definition closeHandler (wasClean : bool) (w : World) : World :=
  let w := updateStatus disconnected w in
  let w := stopHeartbeat w in
  if negb wasClean && (reconnectAttempts w <? maxReconnectAttempts)
  then scheduleReconnect w
  else w.

(** The socket of the manager, if any, as the browser leaves it when it
    dispatches an event of that socket. *)
Definition socketBecomes (s : ReadyState) (w : World) : World :=
  match ws w with
  | Some _ => set_ws (Some s) w
  | None => w
  end.

(** The open and close events of the socket that the manager holds: the
    browser has changed its [readyState] when the handler runs. *)
Definition onopen (w : World) : World :=
  openHandler (socketBecomes OPEN w).

Definition onclose (wasClean : bool) (w : World) : World :=
  closeHandler wasClean (socketBecomes CLOSED w).

Definition onerror (w : World) : World :=
  let w := updateStatus error w in
  let w := emit (map ErrorCall (errorListeners w)) w in
  if reconnectAttempts w =? 0 then emit [Reject] w else w.

(** *** sendMessage, disconnect, reconnect *)

(** [this.ws.send(JSON.stringify(message))] *)
Definition socketSend (message : Envelope) (w : World) : outcome World :=
  if sendThrows w then Thrown
  else Returned (emit [SocketSend message] w).

Definition sendMessage (content : jsstring) (w : World)
  : outcome (bool * World) :=
  if negb (isConnected w) then Returned (false, w)
  else
    let message := {| env_type := lit "message";
                      env_content := content;
                      env_timestamp := now w;
                      enable_multi_agent := true |} in
    match socketSend message w with          (* try *)
    | Returned w => Returned (true, w)
    | Thrown => Returned (false, w)          (* catch *)
    end.

Definition disconnect (w : World) : World :=
  let w := stopReconnect w in
  let w := stopHeartbeat w in
  let w := match ws w with
           | Some _ => set_ws None (emit [SocketClose 1000] w)
           | None => w
           end in
  updateStatus disconnected w.

Definition reconnect (w : World) : World :=
  let w := stopReconnect w in
  let w := disconnect w in
  if truthy (token w) then connect (token w) w else emit [Reject] w.

(** *** Stream reassembly *)

Definition notifyStream (stream_id content : jsstring) (isComplete : bool)
    (w : World) : World :=
  emit (map (fun callback => StreamCall callback stream_id content isComplete)
            (streamListeners w)) w.

(** [if (has_references && references) { ... }] *)
Definition mergeReferences (m : Msg.t) (b : Buf.t) : Buf.t :=
  match Msg.has_references m, Msg.references m with
  | Some true, Some rs =>
      Buf.mk (Buf.content b) (Buf.chunks b) (Buf.totalChunks b) rs true
             (Buf.lastUpdate b)
  | _, _ => b
  end.

Definition handleStreamMessage (m : Msg.t) (w : World) : World :=
  match Msg.stream_id m with
  | None => w
  | Some stream_id =>
    if negb (truthy stream_id) then w
    else
      let streamMessage := streamMessages w !! stream_id in
      if str_eqb (Msg.type m) (lit "stream_start") then
        let b := Buf.mk [] 0 (or_num (Msg.total_chunks m) 1)
                   (default [] (Msg.references m))
                   (or_bool (Msg.has_references m) false) (now w) in
        notifyStream stream_id [] false
          (set_streamMessages (<[stream_id := b]> (streamMessages w)) w)
      else if str_eqb (Msg.type m) (lit "stream_message") then
        let b :=
          match streamMessage with
          | None =>
              Buf.mk (or_str (Msg.content m) [])
                (or_num (Msg.chunk_index m) 0)
                (or_num (Msg.total_chunks m) 1)
                (default [] (Msg.references m))
                (or_bool (Msg.has_references m) false) (now w)
          | Some b0 =>
              mergeReferences m
                (Buf.mk (Buf.content b0 ++ or_str (Msg.content m) [])
                   (or_num (Msg.chunk_index m) (Buf.chunks b0))
                   (Buf.totalChunks b0) (Buf.references b0)
                   (Buf.hasReferences b0) (now w))
          end in
        notifyStream stream_id (Buf.content b) false
          (set_streamMessages (<[stream_id := b]> (streamMessages w)) w)
      else if str_eqb (Msg.type m) (lit "stream_end") then
        match streamMessage with
        | Some b0 =>
            let b :=
              mergeReferences m
                (Buf.mk (or_str (Msg.content m) (Buf.content b0))
                   (or_num (Msg.chunk_index m) (Buf.chunks b0))
                   (Buf.totalChunks b0) (Buf.references b0)
                   (Buf.hasReferences b0) (now w)) in
            let w := set_streamMessages (<[stream_id := b]> (streamMessages w)) w in
            let w :=
              notifyStream stream_id
                (if truthy (Buf.content b) then Buf.content b
                 else or_str (Msg.content m) [])
                true w in
            snd (setTimeout (DeleteStream stream_id) graceWindow w)
        | None =>
            notifyStream stream_id (or_str (Msg.content m) []) true w
        end
      else w
  end.

(** The test of [handleMessage] that routes a frame to the reassembler. *)
Definition isStreamFrame (m : Msg.t) : bool :=
  truthy_opt (Msg.stream_id m)
  && (or_bool (Msg.is_stream m) false
      || str_eqb (Msg.type m) (lit "stream_start")
      || str_eqb (Msg.type m) (lit "stream_message")
      || str_eqb (Msg.type m) (lit "stream_end")).

Definition handleMessage (data : frame_data) (w : World) : World :=
  match data with
  | Malformed => w
  | Parsed m =>
      if isStreamFrame m then handleStreamMessage m w
      else emit (map (fun callback => MessageCall callback m)
                     (messageListeners w)) w
  end.

(** *** The event loop *)

Definition runTimer (t : timer) (w : World) : World :=
  match action t with
  | ReconnectTick =>
      if truthy (token w) && (reconnectAttempts w <=? maxReconnectAttempts)
      then connect (token w) w
      else w
  | DeleteStream stream_id =>
      set_streamMessages (delete stream_id (streamMessages w)) w
  end.

Definition isDue (t : N) (tm : timer) : bool := due tm <=? t.

(** [dt] milliseconds pass: the timers that are due fire, in due order. *)
Definition elapse (dt : N) (w : World) : World :=
  let t := now w + dt in
  fold_left (fun w tm => runTimer tm w)
    (List.filter (isDue t) (timers w))
    (set_timers (List.filter (fun tm => negb (isDue t tm)) (timers w))
       (set_now t w)).

(** What happens to the manager.  [SocketOpened] and [SocketClosed] are
    events of the socket that the manager holds; [StaleOpened] and
    [StaleClosed] are those of a socket that it has replaced or dropped,
    whose handlers still run while [this.ws] is another socket or [null].
    The message and error handlers do not depend on the socket, so
    [SocketMessage] and [SocketError] stand for any socket. *)
Inductive event :=
| SocketOpened
| SocketMessage (data : frame_data)
| SocketClosed (wasClean : bool)
| SocketError
| Elapse (dt : N)
| CallConnect (tok : jsstring)
| CallDisconnect
| CallReconnect
| CallSendMessage (content : jsstring)
| CallRemoveListeners
| StaleOpened
| StaleClosed (wasClean : bool).

Definition step (w : World) (e : event) : World :=
  match e with
  | SocketOpened => onopen w
  | SocketMessage data => handleMessage data w
  | SocketClosed wasClean => onclose wasClean w
  | SocketError => onerror w
  | Elapse dt => elapse dt w
  | CallConnect tok => connect tok w
  | CallDisconnect => disconnect w
  | CallReconnect => reconnect w
  | CallSendMessage content =>
      match sendMessage content w with
      | Returned (_, w) => w
      | Thrown => w
      end
  | CallRemoveListeners => removeListeners w
  | StaleOpened => openHandler w
  | StaleClosed wasClean => closeHandler wasClean w
  end.

Definition run (es : list event) (w : World) : World := fold_left step es w.

(** *** What listeners and timers observe in a trace *)

Definition isStreamCall (e : effect) : bool :=
  match e with StreamCall _ _ _ _ => true | _ => false end.

(** The calls made to stream listeners. *)
Definition streamCalls (tr : list effect) : list effect :=
  List.filter isStreamCall tr.

(** The completion notifications for one stream: listener and text. *)
Fixpoint completions (stream_id : jsstring) (tr : list effect)
  : list (nat * jsstring) :=
  match tr with
  | [] => []
  | StreamCall callback id content true :: tr' =>
      if str_eqb id stream_id
      then (callback, content) :: completions stream_id tr'
      else completions stream_id tr'
  | _ :: tr' => completions stream_id tr'
  end.

(** The delays of the reconnection timers that were scheduled. *)
Fixpoint reconnectDelays (tr : list effect) : list N :=
  match tr with
  | [] => []
  | SetTimeout _ delay ReconnectTick :: tr' => delay :: reconnectDelays tr'
  | _ :: tr' => reconnectDelays tr'
  end.

(** A manager as its constructor leaves it, with the given listeners.
    Timer handles start at 1: a handle is truthy. *)
Definition initial (streamLs messageLs : list nat) : World :=
  mkWorld None [] 0 None None [] messageLs [] streamLs ∅ 0 [] 1%nat
    false false [].

(** *** Vocabulary of the properties of the manager *)

(** The effect that schedules a reconnection. *)
Definition schedulesReconnect (e : effect) : bool :=
  match e with SetTimeout _ _ ReconnectTick => true | _ => false end.

(** The text accumulated for a stream; empty when it has no buffer. *)
Definition bufferText (w : World) (sid : jsstring) : jsstring :=
  match streamMessages w !! sid with
  | Some b => Buf.content b
  | None => []
  end.

(** A [stream_message] frame, and a [stream_end] frame, of one stream. *)
Definition isChunkOf (sid : jsstring) (m : Msg.t) : Prop :=
  Msg.type m = lit "stream_message" /\ Msg.stream_id m = Some sid.

Definition isEndOf (sid : jsstring) (m : Msg.t) : Prop :=
  Msg.type m = lit "stream_end" /\ Msg.stream_id m = Some sid.

(** The contents of the chunks, in arrival order. *)
Definition chunkText (chunks : list Msg.t) : jsstring :=
  concat (map (fun m => or_str (Msg.content m) []) chunks).

(** The text a [stream_end] frame settles: its own content when it has a
    non-empty one, the accumulated text otherwise. *)
Definition finalText (accumulated : jsstring) (e : Msg.t) : jsstring :=
  if truthy_opt (Msg.content e) then default [] (Msg.content e)
  else accumulated.

(** A frame of a stream with the given type, identifier and content. *)
Definition frame (type : string) (stream_id content : option jsstring)
  : Msg.t :=
  Msg.mk (lit type) content None None [] None None None stream_id None None
    None.

(** The envelope that [sendMessage] builds. *)
Definition envelope (content : jsstring) (w : World) : Envelope :=
  {| env_type := lit "message"; env_content := content;
     env_timestamp := now w; enable_multi_agent := true |}.

(** The claim of a silent drop, for a stream whose [stream_end] frame [e]
    is followed, [dt] ms later, by the duplicate [dup]. *)
Definition droppedSilently (sid : jsstring) (e dup : Msg.t) (dt : N)
    (w : World) : Prop :=
  let w2 := elapse dt (handleMessage (Parsed e) w) in
  streamMessages w2 !! sid = None
  /\ streamCalls (trace (handleMessage (Parsed dup) w2)) = streamCalls (trace w2).

(** A step is silent when it neither changes the attempt counter nor
    schedules a reconnection. *)
Definition silent (w w' : World) : Prop :=
  reconnectAttempts w' = reconnectAttempts w
  /\ reconnectDelays (trace w') = reconnectDelays (trace w).

(** The events that leave the attempt counter alone or raise it: all but
    an opened socket and a caller's [disconnect] or [reconnect], which
    reset it. *)
Definition keepsCounting (e : event) : bool :=
  match e with
  | SocketOpened | StaleOpened | CallDisconnect | CallReconnect => false
  | _ => true
  end.

Definition isUncleanClose (e : event) : bool :=
  match e with
  | SocketClosed false | StaleClosed false => true
  | _ => false
  end.

Definition uncleanCloses (es : list event) : nat :=
  length (List.filter isUncleanClose es).

(** The delays of the attempts [first], [first + 1], ... *)
Definition backoff (first count : nat) : list N :=
  map (fun k => reconnectInterval * N.of_nat k) (seq first count).

(** No timer that deletes the buffer of the stream is pending. *)
Definition noPendingDelete (sid : jsstring) (w : World) : Prop :=
  Forall (fun t => action t <> DeleteStream sid) (timers w).

(** The frames that a run of events delivers. *)
Definition framesOf (es : list event) : list Msg.t :=
  flat_map (fun e => match e with
                     | SocketMessage (Parsed m) => [m]
                     | _ => []
                     end) es.

(** An event of a stream in progress: one of its chunks, or time passing. *)
Definition chunkOrElapse (sid : jsstring) (e : event) : Prop :=
  match e with
  | SocketMessage (Parsed m) => isChunkOf sid m
  | Elapse _ => True
  | _ => False
  end.

(** The claim of reassembly, for a stream whose chunks arrive in the run
    [es] and whose [stream_end] frame [e] follows: every stream listener is
    told one more completion, with the end frame's content or else the
    chunks in arrival order. *)
Definition reassembled (sid : jsstring) (es : list event) (e : Msg.t)
    (w : World) : Prop :=
  completions sid (trace (run (es ++ [SocketMessage (Parsed e)]) w)) =
    completions sid (trace w)
    ++ map (fun l => (l, finalText (chunkText (framesOf es)) e))
         (streamListeners w).

(** *** Further vocabulary of the manager *)

(** A [stream_start] frame of one stream. *)
Definition isStartOf (sid : jsstring) (m : Msg.t) : Prop :=
  Msg.type m = lit "stream_start" /\ Msg.stream_id m = Some sid.





(** [getConnectionStatus()] *)
Definition getConnectionStatus (w : World) : ConnectionStatus :=
  match ws w with
  | None => disconnected
  | Some CONNECTING => connecting
  | Some OPEN => connected
  | Some CLOSING => reconnecting
  | Some CLOSED => disconnected
  end.



(** *** Vocabulary of the reconnection policy *)








(** Projections of updated worlds. *)
Ltac wsimpl :=
  cbn [ws token reconnectAttempts reconnectTimer heartbeatTimer
       statusListeners messageListeners errorListeners streamListeners
       streamMessages now timers nextTimer ctorThrows sendThrows trace
       set_ws set_token set_reconnectAttempts set_reconnectTimer
       set_heartbeatTimer set_statusListeners set_messageListeners
       set_errorListeners set_streamListeners set_streamMessages set_now
       set_timers set_nextTimer set_trace emit fst snd] in *.

End Websocket.

(** ** stores/chat.ts: the message store *)

Module ChatStore.

Inductive Role := user | ai.

(** [interface ChatMessage] of [types/chat.ts]. *)
Module ChatMessage.
Record t := mk {
  id : jsstring;
  type : Role;
  content : jsstring;
  timestamp : N;
  hasReferences : option bool;
  references : option (list Reference);
  isStreaming : option bool;
  streamId : option jsstring;
  feedbackSubmitted : option bool
}.
End ChatMessage.

(** The refs of the store: [messages], [isLoading], [streamingMessage]. *)
Record Store := {
  messages : list ChatMessage.t;
  isLoading : bool;
  streamingMessage : option ChatMessage.t
}.

Definition empty : Store :=
  {| messages := []; isLoading := false; streamingMessage := None |}.

(** What a call reads from outside the store: the identifier built from
    [Date.now()] and [Math.random()], and [new Date()]. *)
Record Ambient := {
  freshId : jsstring;
  date : N
}.

Definition addMessage (message : ChatMessage.t) (st : Store) : Store :=
  {| messages := messages st ++ [message];
     isLoading := isLoading st;
     streamingMessage := streamingMessage st |}.

Definition addOrUpdateStreamingMessage (content : jsstring)
    (isComplete : bool) (streamId : jsstring)
    (references : option (list Reference)) (amb : Ambient) (st : Store)
  : Store :=
  match streamingMessage st with
  | Some sm =>
      let sm1 :=
        ChatMessage.mk (ChatMessage.id sm) (ChatMessage.type sm) content
          (ChatMessage.timestamp sm) (ChatMessage.hasReferences sm)
          (ChatMessage.references sm) (ChatMessage.isStreaming sm)
          (ChatMessage.streamId sm) (ChatMessage.feedbackSubmitted sm) in
      if isComplete then
        let sm2 :=
          ChatMessage.mk (ChatMessage.id sm1) (ChatMessage.type sm1)
            (ChatMessage.content sm1) (ChatMessage.timestamp sm1)
            (match references with
             | Some rs => Some (Nat.ltb 0 (length rs))
             | None => None
             end)
            (Some (default [] references))
            (Some false)
            (ChatMessage.streamId sm1) (ChatMessage.feedbackSubmitted sm1) in
        {| messages := messages st ++ [sm2];
           isLoading := isLoading st;
           streamingMessage := None |}
      else
        {| messages := messages st;
           isLoading := isLoading st;
           streamingMessage := Some sm1 |}
  | None =>
      if negb isComplete then
        let message :=
          ChatMessage.mk (freshId amb) ai content (date amb) (Some false)
            (Some (default [] references)) (Some true) (Some streamId)
            None in
        {| messages := messages st;
           isLoading := isLoading st;
           streamingMessage := Some message |}
      else st
  end.

Definition clearMessages (st : Store) : Store :=
  {| messages := []; isLoading := isLoading st; streamingMessage := None |}.

(** A message that is in progress: its [isStreaming] flag is [true]. *)
Definition inProgress (m : ChatMessage.t) : bool :=
  match ChatMessage.isStreaming m with Some true => true | _ => false end.

(** The calls of the store that the components make. *)
Inductive op :=
| AddMessage (message : ChatMessage.t)
| AddOrUpdateStreamingMessage (content : jsstring) (isComplete : bool)
    (streamId : jsstring) (references : option (list Reference))
    (amb : Ambient)
| ClearMessages.

Definition apply (st : Store) (o : op) : Store :=
  match o with
  | AddMessage message => addMessage message st
  | AddOrUpdateStreamingMessage content isComplete streamId references amb =>
      addOrUpdateStreamingMessage content isComplete streamId references
        amb st
  | ClearMessages => clearMessages st
  end.

(** [addMessage] is called on messages that are not streaming. *)
Definition admissible (o : op) : Prop :=
  match o with
  | AddMessage message => inProgress message = false
  | _ => True
  end.

(** The states that the operations reach from the empty store. *)
Inductive reachable : Store -> Prop :=
| reach_empty : reachable empty
| reach_step st o :
    reachable st -> admissible o -> reachable (apply st o).

(** *** Vocabulary of the properties of the store *)

(** What a completed stream leaves in the list: the message created by
    the first call, with the text and the references of the last. *)
Definition finalized (first : Ambient) (streamId : jsstring)
    (content : jsstring) (references : option (list Reference))
  : ChatMessage.t :=
  ChatMessage.mk (freshId first) ai content (date first)
    (match references with
     | Some rs => Some (Nat.ltb 0 (length rs))
     | None => None
     end)
    (Some (default [] references)) (Some false) (Some streamId) None.

(** The invariant of the store: nothing in the list is in progress, and
    the slot, when it is filled, is. *)
Definition wellFormed (st : Store) : Prop :=
  Forall (fun m => inProgress m = false) (messages st)
  /\ (forall sm, streamingMessage st = Some sm -> inProgress sm = true).

(** A partial update of the stream in progress, as an operation. *)
Definition partialUpdate
    (u : jsstring * jsstring * option (list Reference) * Ambient) : op :=
  let '(content, streamId, references, amb) := u in
  AddOrUpdateStreamingMessage content false streamId references amb.

Definition isClear (o : op) : bool :=
  match o with ClearMessages => true | _ => false end.

End ChatStore.

(** ** ChatInterface.vue: the reference extractor *)

Module ChatInterface.
Import JsString Regex.

(** The literal ['**参考文档:**'] as code units: two asterisks, the four
    ideographs U+53C2 U+8003 U+6587 U+6863, a colon, two asterisks. *)
Definition marker : jsstring :=
  [42; 42; 21442; 32771; 25991; 26723; 58; 42; 42].

(** [/^(\d+)\.\s+(.+)\s*\n\s+(.+)/] *)
Definition refRegex : list item :=
  [ Bol;
    Rep digit Plus true;
    Rep (is_char 46) One false;
    Rep space Plus false;
    Rep dot Plus true;
    Rep space Star false;
    Rep (is_char LF) One false;
    Rep space Plus false;
    Rep dot Plus true ].

Definition checkHasReferences (content : jsstring) : bool :=
  includes content marker.

(** The reference pushed for a successful [refMatch]: groups 2 and 3. *)
Definition refOfMatch (refMatch : list jsstring) : Reference :=
  {| source := nth 2 refMatch []; content_preview := nth 3 refMatch [] |}.

(** One iteration of the [for (const line of lines)] loop of
    [extractReferences]; the state is [(inReferenceSection, references)]. *)
Definition extractStep (st : bool * list Reference) (line : jsstring)
  : bool * list Reference :=
  let '(inReferenceSection, references) := st in
  if includes line marker then (true, references)
  else if inReferenceSection then
    match exec refRegex line with
    | Some refMatch => (inReferenceSection, references ++ [refOfMatch refMatch])
    | None => (inReferenceSection, references)
    end
  else (inReferenceSection, references).

Definition extractReferences (content : jsstring) : list Reference :=
  snd (fold_left extractStep (split LF content) (false, [])).

Record ParseResult := {
  text : jsstring;
  references : list Reference
}.

Record ParseState := {
  inReferenceSection : bool;
  textLines : list jsstring;
  refs : list Reference
}.

(** One iteration of the loop of [parseReferences]. *)
Definition parseStep (st : ParseState) (line : jsstring) : ParseState :=
  if includes line marker then
    {| inReferenceSection := true;
       textLines := textLines st; refs := refs st |}
  else if inReferenceSection st then
    match exec refRegex line with
    | Some refMatch =>
        {| inReferenceSection := inReferenceSection st;
           textLines := textLines st;
           refs := refs st ++ [refOfMatch refMatch] |}
    | None => st
    end
  else
    {| inReferenceSection := inReferenceSection st;
       textLines := textLines st ++ [line];
       refs := refs st |}.

Definition parseLoop (lines : list jsstring) : ParseState :=
  fold_left parseStep lines
    {| inReferenceSection := false; textLines := []; refs := [] |}.

Definition parseReferences (content : jsstring) : ParseResult :=
  let st := parseLoop (split LF content) in
  {| text := join [LF] (textLines st); references := refs st |}.

(** The computed [allMessages]: what the component renders. *)
Definition allMessages (st : ChatStore.Store) : list ChatStore.ChatMessage.t :=
  match ChatStore.streamingMessage st with
  | Some streamingMessage => ChatStore.messages st ++ [streamingMessage]
  | None => ChatStore.messages st
  end.

(** *** The stream listener registered with the manager *)

Record Ui := {
  streamingMessageId : option jsstring;
  currentStreamContent : jsstring;
  isStreamComplete : bool;
  isTyping : bool;
  chatStore : ChatStore.Store
}.

Definition handleStreamMessage (messageId content : jsstring)
    (isComplete : bool) (amb : ChatStore.Ambient) (ui : Ui) : Ui :=
  let hasReferences := checkHasReferences content in
  let references := if hasReferences then extractReferences content else [] in
  let store :=
    ChatStore.addOrUpdateStreamingMessage content isComplete messageId
      (Some references) amb (chatStore ui) in
  if isComplete then
    {| streamingMessageId := None; currentStreamContent := [];
       isStreamComplete := false; isTyping := false; chatStore := store |}
  else
    {| streamingMessageId := Some messageId; currentStreamContent := content;
       isStreamComplete := isComplete; isTyping := isTyping ui;
       chatStore := store |}.

(** *** The citation record of the specification *)

(** The citation record of the spec, and a body that carries it. *)
Definition record : jsstring :=
  lit "1. doc.pdf" ++ [LF] ++ lit "   preview text".

Definition withRecord (visible : jsstring) : jsstring :=
  visible ++ LF :: marker ++ LF :: record.

(** *** Further functions of the component *)

(** [formatMessageContent]: [content.replace(/\n/g, '<br>')] *)
Definition formatMessageContent (content : jsstring) : jsstring :=
  flat_map (fun c => if N.eqb c LF then lit "<br>" else [c]) content.

(** The lines that precede the first line with the marker. *)
Fixpoint beforeMarker (lines : list jsstring) : list jsstring :=
  match lines with
  | [] => []
  | line :: rest =>
      if includes line marker then [] else line :: beforeMarker rest
  end.

(** *** The manager's stream calls, delivered to the component *)





End ChatInterface.

(** ** stores/auth.ts: the authentication store *)

Module AuthStore.
Import JsString.

Record Store := {
  token : option jsstring;
  username : option jsstring
}.

(** The getter [isAuthenticated]: [!!state.token]. *)
Definition isAuthenticated (st : Store) : bool :=
  match token st with Some t => truthy t | None => false end.

(** The getter [currentUser]: the user name, when there is a non-empty one. *)
Definition currentUser (st : Store) : option jsstring :=
  match username st with
  | Some u => if truthy u then Some u else None
  | None => None
  end.

Definition login (newToken newUsername : jsstring) (st : Store) : Store :=
  {| token := Some newToken; username := Some newUsername |}.

(** The router that [useRouter()] hands out. *)
Inductive Router := TheRouter.

(** [logout()]: the state is cleared, then [useRouter()] is asked for the
    router and ['/login'] is pushed to it.  [router] is what [useRouter()]
    returns: it injects the router of the component that is being set up,
    and gives [undefined] ([None]) when there is none, as in an action
    called from an event handler; [router.push] then throws.  The second
    component tells how the call ends: with the route pushed, or by the
    exception. *)
Definition logout (router : option Router) (st : Store)
  : Store * Websocket.outcome jsstring :=
  let st := {| token := None; username := None |} in
  match router with
  | Some _ => (st, Websocket.Returned (lit "/login"))
  | None => (st, Websocket.Thrown)
  end.

Definition getToken (st : Store) : option jsstring := token st.

Definition getUsername (st : Store) : option jsstring := username st.

(** The code unit of ['.']. *)
Definition DOT : N := 46.

Definition isTokenValid (st : Store) : bool :=
  match token st with
  | None => false
  | Some t =>
      if negb (truthy t) then false
      else Nat.eqb (length (split DOT t)) 3
  end.

(** The number of occurrences of a code unit. *)
Fixpoint occurrences (c : N) (s : jsstring) : nat :=
  match s with
  | [] => 0%nat
  | x :: s' => if N.eqb x c then S (occurrences c s') else occurrences c s'
  end.

End AuthStore.

(** ** Numbers that hold integers *)

Module JsNumber.

(** A number is an IEEE 754 double: among the integers, those whose
    magnitude has at most 53 significant bits.  [roundToDouble z] is the
    double nearest to the integer [z], a tie going to the even
    significand (below 2^1024: the counters of the stores do not reach
    the largest double). *)
Definition roundToDouble (z : Z) : Z :=
  let m := Z.abs z in
  if (m <? 2 ^ 53)%Z then z
  else
    let u := (2 ^ (Z.log2 m - 52))%Z in
    let q := (m / u)%Z in
    let r := (m mod u)%Z in
    let q' :=
      if (2 * r <? u)%Z then q
      else if (u <? 2 * r)%Z then (q + 1)%Z
      else if Z.even q then q else (q + 1)%Z in
    (Z.sgn z * (q' * u))%Z.

(** [a + b] *)
Definition add (a b : Z) : Z := roundToDouble (a + b).

End JsNumber.

(** ** stores/sessions.ts: the session list *)

Module SessionsStore.
Import JsString.

Inductive Status := active | ended.

(** [interface Session] *)
Module Session.
Record t := mk {
  session_id : jsstring;
  start_time : jsstring;
  end_time : jsstring;
  message_count : Z;
  last_message : option jsstring;
  status : Status
}.
End Session.

Record Store := mkStore {
  sessions : list Session.t;
  currentSessionId : option jsstring;
  isLoading : bool;
  isLoadingMore : bool;
  hasMore : bool;
  currentPage : Z
}.

Definition set_sessions (v : list Session.t) (st : Store) : Store :=
  mkStore v (currentSessionId st) (isLoading st) (isLoadingMore st)
    (hasMore st) (currentPage st).

Definition set_currentSessionId (v : option jsstring) (st : Store) : Store :=
  mkStore (sessions st) v (isLoading st) (isLoadingMore st) (hasMore st)
    (currentPage st).

(** [s.session_id === sessionId] *)
Definition hasId (sessionId : jsstring) (s : Session.t) : bool :=
  bool_decide (Session.session_id s = sessionId).

(** [sessions.value.find(s => s.session_id === sessionId)] followed by an
    update of the session found: the first session with the identifier
    is changed in place, the list is left alone when there is none. *)
Fixpoint updateFirst (sessionId : jsstring) (f : Session.t -> Session.t)
    (l : list Session.t) : list Session.t :=
  match l with
  | [] => []
  | s :: rest =>
      if hasId sessionId s then f s :: rest
      else s :: updateFirst sessionId f rest
  end.

(** The computed [currentSession]. *)
Definition currentSession (st : Store) : option Session.t :=
  match currentSessionId st with
  | None => None
  | Some id => List.find (hasId id) (sessions st)
  end.

Definition selectSession (sessionId : jsstring) (st : Store) : Store :=
  set_sessions
    (updateFirst sessionId
       (fun s => Session.mk (Session.session_id s) (Session.start_time s)
                   (Session.end_time s) (Session.message_count s)
                   (Session.last_message s) active)
       (sessions st))
    (set_currentSessionId (Some sessionId) st).

(** [endSession]; [nowIso] is [new Date().toISOString()]. *)
Definition endSession (sessionId : jsstring) (nowIso : jsstring) (st : Store)
  : Store :=
  set_sessions
    (updateFirst sessionId
       (fun s => Session.mk (Session.session_id s) (Session.start_time s)
                   nowIso (Session.message_count s)
                   (Session.last_message s) ended)
       (sessions st))
    st.

(** [message.length > 50 ? message.substring(0, 50) + '...' : message] *)
Definition preview (message : jsstring) : jsstring :=
  if Nat.ltb 50 (length message) then take 50 message ++ lit "..."
  else message.

Definition updateSessionLastMessage (sessionId message : jsstring)
    (st : Store) : Store :=
  set_sessions
    (updateFirst sessionId
       (fun s => Session.mk (Session.session_id s) (Session.start_time s)
                   (Session.end_time s)
                   (JsNumber.add (Session.message_count s) 1)
                   (Some (preview message)) (Session.status s))
       (sessions st))
    st.

Definition clearSessions (st : Store) : Store :=
  mkStore [] None (isLoading st) (isLoadingMore st) true 1.

Definition renameSession (sessionId newName : jsstring) (st : Store) : Store :=
  set_sessions
    (updateFirst sessionId
       (fun s => Session.mk (Session.session_id s) (Session.start_time s)
                   (Session.end_time s) (Session.message_count s)
                   (Some newName) (Session.status s))
       (sessions st))
    st.

(** [findIndex] and [splice(index, 1)]: the list without its first
    session with the identifier; [None] when [findIndex] gives -1. *)
Fixpoint removeFirst (sessionId : jsstring) (l : list Session.t)
  : option (list Session.t) :=
  match l with
  | [] => None
  | s :: rest =>
      if hasId sessionId s then Some rest
      else match removeFirst sessionId rest with
           | Some rest' => Some (s :: rest')
           | None => None
           end
  end.

Definition deleteSession (sessionId : jsstring) (st : Store) : Store :=
  match removeFirst sessionId (sessions st) with
  | None => st
  | Some rest =>
      let st := set_sessions rest st in
      if bool_decide (currentSessionId st = Some sessionId) then
        set_currentSessionId
          (match rest with
           | s :: _ => Some (Session.session_id s)
           | [] => None
           end) st
      else st
  end.

(** The answer of [POST /api/v1/sessions]. *)
Record Created := {
  r_session_id : jsstring;
  r_start_time : option jsstring;
  r_end_time : option jsstring
}.

(** What [createSession] reads from outside: two readings of
    [new Date().toISOString()] and the identifier built from [Date.now()]
    and [Math.random()]. *)
Record Ambient := {
  iso1 : jsstring;
  iso2 : jsstring;
  tempId : jsstring
}.

(** ['新会话'] *)
Definition newSessionLabel : jsstring := [26032; 20250; 35805].

Definition orText (a : option jsstring) (b : jsstring) : jsstring :=
  match a with
  | Some s => if truthy s then s else b
  | None => b
  end.

(** [createSession(title)], from the moment its request is settled:
    [response] is the answer, or [None] when the request failed.  Without
    token nothing happens. *)
Definition createSession (authToken title : option jsstring)
    (response : option Created) (amb : Ambient) (st : Store) : Store :=
  match authToken with
  | None => st
  | Some t =>
      if negb (truthy t) then st
      else
        let session :=
          match response with
          | Some r =>
              Session.mk (r_session_id r) (orText (r_start_time r) (iso1 amb))
                (orText (r_end_time r) (iso2 amb)) 0
                (Some (orText title newSessionLabel)) active
          | None =>
              Session.mk (tempId amb) (iso1 amb) (iso2 amb) 0
                (Some (orText title newSessionLabel)) active
          end in
        set_currentSessionId (Some (Session.session_id session))
          (set_sessions (session :: sessions st) st)
  end.

(** The answer of [GET /api/v1/sessions]: [data.sessions] and
    [data.has_more], each present or not. *)
Record Fetched := {
  f_sessions : option (list Session.t);
  f_has_more : option bool
}.

(** [fetchSessions(page)] up to its request: with a token, the loading
    flag of the page is set. *)
Definition fetchSessionsStart (authToken : option jsstring) (page : Z)
    (st : Store) : Store :=
  match authToken with
  | None => st
  | Some t =>
      if negb (truthy t) then st
      else if Z.eqb page 1 then
        mkStore (sessions st) (currentSessionId st) true (isLoadingMore st)
          (hasMore st) (currentPage st)
      else
        mkStore (sessions st) (currentSessionId st) (isLoading st) true
          (hasMore st) (currentPage st)
  end.

(** [fetchSessions(page)] from the moment its request is settled:
    [response] is the answer, or [None] when the request failed.  The
    first page replaces the list, a later page is appended;
    [currentSessionId] is not touched. *)
Definition fetchSessionsSettled (page : Z) (response : option Fetched)
    (st : Store) : Store :=
  let st :=
    match response with
    | Some data =>
        let fetched := default [] (f_sessions data) in
        mkStore (if Z.eqb page 1 then fetched else sessions st ++ fetched)
          (currentSessionId st) (isLoading st) (isLoadingMore st)
          (match f_has_more data with Some true => true | _ => false end)
          page
    | None => st
    end in
  mkStore (sessions st) (currentSessionId st) false false (hasMore st)
    (currentPage st).

(** [refreshSessions] and [loadMoreSessions], up to the request. *)
Definition refreshSessionsStart (authToken : option jsstring) (st : Store)
  : Store :=
  fetchSessionsStart authToken 1 st.

Definition loadMoreSessionsStart (authToken : option jsstring) (st : Store)
  : Store :=
  if negb (hasMore st) || isLoadingMore st then st
  else fetchSessionsStart authToken (JsNumber.add (currentPage st) 1) st.

(** *** Vocabulary of the properties of the session list *)

Definition ids (st : Store) : list jsstring :=
  map Session.session_id (sessions st).

(** The identifiers of the sessions of an answer. *)
Definition fetchedIds (data : Fetched) : list jsstring :=
  map Session.session_id (default [] (f_sessions data)).

(** The pointer to the current session is empty or names a session of
    the list. *)
Definition currentValid (st : Store) : Prop :=
  match currentSessionId st with
  | None => True
  | Some id => In id (ids st)
  end.

(** The calls of the store, those that wait for a request in two parts. *)
Inductive op :=
| SelectSession (sessionId : jsstring)
| EndSession (sessionId nowIso : jsstring)
| UpdateSessionLastMessage (sessionId message : jsstring)
| RenameSession (sessionId newName : jsstring)
| DeleteSession (sessionId : jsstring)
| CreateSession (authToken title : option jsstring)
    (response : option Created) (amb : Ambient)
| ClearSessions
| FetchSessionsStart (authToken : option jsstring) (page : Z)
| FetchSessionsSettled (page : Z) (response : option Fetched)
| LoadMoreSessionsStart (authToken : option jsstring).

Definition apply (st : Store) (o : op) : Store :=
  match o with
  | SelectSession sessionId => selectSession sessionId st
  | EndSession sessionId nowIso => endSession sessionId nowIso st
  | UpdateSessionLastMessage sessionId message =>
      updateSessionLastMessage sessionId message st
  | RenameSession sessionId newName => renameSession sessionId newName st
  | DeleteSession sessionId => deleteSession sessionId st
  | CreateSession authToken title response amb =>
      createSession authToken title response amb st
  | ClearSessions => clearSessions st
  | FetchSessionsStart authToken page => fetchSessionsStart authToken page st
  | FetchSessionsSettled page response =>
      fetchSessionsSettled page response st
  | LoadMoreSessionsStart authToken => loadMoreSessionsStart authToken st
  end.

(** An operation that keeps the pointer on the list: a selection names a
    session of the list, and a first page that arrives lists the current
    session. *)
Definition keepsListed (st : Store) (o : op) : Prop :=
  match o with
  | SelectSession sessionId => In sessionId (ids st)
  | FetchSessionsSettled page (Some data) =>
      page = 1%Z ->
      match currentSessionId st with
      | Some id => In id (fetchedIds data)
      | None => True
      end
  | _ => True
  end.

(** Operations in a row, each keeping the pointer on the list. *)
Fixpoint allKeepListed (st : Store) (ops : list op) : Prop :=
  match ops with
  | [] => True
  | o :: ops => keepsListed st o /\ allKeepListed (apply st o) ops
  end.

(** The store as it is defined. *)
Definition initial : Store := mkStore [] None false false true 1.

End SessionsStore.

(** ** More string primitives: trim *)

Module JsText.

(** The white space that [String.prototype.trim] removes: WhiteSpace and
    LineTerminator, the class of [\s]. *)
Definition isSpace (c : N) : bool := Regex.space c.

Fixpoint trimStart (s : jsstring) : jsstring :=
  match s with
  | c :: s' => if isSpace c then trimStart s' else s
  | [] => []
  end.

Definition trimEnd (s : jsstring) : jsstring := rev (trimStart (rev s)).

Definition trim (s : jsstring) : jsstring := trimEnd (trimStart s).

End JsText.

(** ** ChatInterface.vue: the component around the stores and the manager *)

Module ChatPage.
Import JsString.

(** The toasts of [useMessage()]. *)
Inductive Toast :=
| Warning (text : jsstring)
| Success (text : jsstring)
| Info (text : jsstring).

(** The refs of the component and the stores it uses; [createRequests]
    holds the titles of the calls of [createSession] whose request is not
    settled yet. *)
Record Page := mkPage {
  view : ChatInterface.Ui;
  inputMessage : jsstring;
  connectionStatus : Websocket.ConnectionStatus;
  isSending : bool;
  sessionsStore : SessionsStore.Store;
  authStore : AuthStore.Store;
  createRequests : list (option jsstring);
  toasts : list Toast
}.

(** What a call reads from outside: the identifier and the date of a new
    message, and the parser of [new Date(timestamp)]. *)
Record Outside := {
  stamp : ChatStore.Ambient;
  parseDate : jsstring -> N
}.

Definition set_view (v : ChatInterface.Ui) (p : Page) : Page :=
  mkPage v (inputMessage p) (connectionStatus p) (isSending p)
    (sessionsStore p) (authStore p) (createRequests p) (toasts p).

Definition set_chatStore (st : ChatStore.Store) (p : Page) : Page :=
  set_view
    {| ChatInterface.streamingMessageId :=
         ChatInterface.streamingMessageId (view p);
       ChatInterface.currentStreamContent :=
         ChatInterface.currentStreamContent (view p);
       ChatInterface.isStreamComplete :=
         ChatInterface.isStreamComplete (view p);
       ChatInterface.isTyping := ChatInterface.isTyping (view p);
       ChatInterface.chatStore := st |} p.

Definition set_isTyping (b : bool) (p : Page) : Page :=
  set_view
    {| ChatInterface.streamingMessageId :=
         ChatInterface.streamingMessageId (view p);
       ChatInterface.currentStreamContent :=
         ChatInterface.currentStreamContent (view p);
       ChatInterface.isStreamComplete :=
         ChatInterface.isStreamComplete (view p);
       ChatInterface.isTyping := b;
       ChatInterface.chatStore := ChatInterface.chatStore (view p) |} p.

Definition set_inputMessage (v : jsstring) (p : Page) : Page :=
  mkPage (view p) v (connectionStatus p) (isSending p) (sessionsStore p)
    (authStore p) (createRequests p) (toasts p).

Definition set_connectionStatus (v : Websocket.ConnectionStatus) (p : Page)
  : Page :=
  mkPage (view p) (inputMessage p) v (isSending p) (sessionsStore p)
    (authStore p) (createRequests p) (toasts p).

Definition set_isSending (v : bool) (p : Page) : Page :=
  mkPage (view p) (inputMessage p) (connectionStatus p) v (sessionsStore p)
    (authStore p) (createRequests p) (toasts p).

Definition set_sessionsStore (v : SessionsStore.Store) (p : Page) : Page :=
  mkPage (view p) (inputMessage p) (connectionStatus p) (isSending p) v
    (authStore p) (createRequests p) (toasts p).

Definition set_createRequests (v : list (option jsstring)) (p : Page) : Page :=
  mkPage (view p) (inputMessage p) (connectionStatus p) (isSending p)
    (sessionsStore p) (authStore p) v (toasts p).

Definition set_toasts (v : list Toast) (p : Page) : Page :=
  mkPage (view p) (inputMessage p) (connectionStatus p) (isSending p)
    (sessionsStore p) (authStore p) (createRequests p) v.

Definition chatStore (p : Page) : ChatStore.Store :=
  ChatInterface.chatStore (view p).

Definition isTyping (p : Page) : bool := ChatInterface.isTyping (view p).

(** The computed [isConnected]. *)
Definition isConnected (p : Page) : bool :=
  match connectionStatus p with Websocket.connected => true | _ => false end.

(** [addMessage] of the component ([scrollToBottom] only moves the
    view). *)
Definition addMessage (content : jsstring) (type : ChatStore.Role)
    (timestamp : option jsstring) (hasReferences : option bool)
    (references : option (list Reference)) (out : Outside) (p : Page) : Page :=
  let message :=
    ChatStore.ChatMessage.mk (ChatStore.freshId (stamp out)) type content
      (match timestamp with
       | Some t => if truthy t then parseDate out t
                   else ChatStore.date (stamp out)
       | None => ChatStore.date (stamp out)
       end)
      hasReferences references None None None in
  set_chatStore (ChatStore.addMessage message (chatStore p)) p.

(** The greeting that the component shows. *)
Definition welcome : jsstring :=
  [24744; 22909; 65281; 25105; 26159; 26234; 33021; 23458; 26381; 21161;
   25163; 65292; 24456; 39640; 20852; 20026; 24744; 26381; 21153; 12290;
   35831; 36755; 20837; 24744; 30340; 38382; 39064; 65292; 25105; 23558;
   23613; 21147; 24110; 21161; 24744; 12290].

(** A call of [sessionsStore.createSession()] that is not awaited: the
    request starts when the store has a token. *)
Definition startCreateSession (title : option jsstring) (p : Page) : Page :=
  if AuthStore.isAuthenticated (authStore p)
  then set_createRequests (createRequests p ++ [title]) p
  else p.

Definition handleWebSocketMessage (message : Websocket.Msg.t) (out : Outside)
    (p : Page) : Page :=
  let type := Websocket.Msg.type message in
  let p :=
    if Websocket.str_eqb type (lit "connected") then
      let p :=
        if negb (Websocket.truthy_opt
                   (SessionsStore.currentSessionId (sessionsStore p)))
        then
          match SessionsStore.sessions (sessionsStore p) with
          | s :: _ =>
              set_sessionsStore
                (SessionsStore.selectSession
                   (SessionsStore.Session.session_id s) (sessionsStore p)) p
          | [] => startCreateSession None p
          end
        else p in
      addMessage welcome ChatStore.ai
        (Some (Websocket.Msg.timestamp message)) None None out p
    else if Websocket.str_eqb type (lit "message") then p
    else if Websocket.str_eqb type (lit "response") then
      let hasReferences :=
        Websocket.or_bool (Websocket.Msg.has_references message) false in
      if hasReferences then
        let parsed :=
          ChatInterface.parseReferences
            (Websocket.or_str (Websocket.Msg.content message) []) in
        addMessage (ChatInterface.text parsed) ChatStore.ai
          (Some (Websocket.Msg.timestamp message)) (Some hasReferences)
          (Some (ChatInterface.references parsed)) out p
      else
        addMessage (Websocket.or_str (Websocket.Msg.content message) [])
          ChatStore.ai (Some (Websocket.Msg.timestamp message)) None None
          out p
    else p in
  set_isSending false (set_isTyping false p).

(** The messages of the toasts of [handleConnectionStatusChange]:
    ['连接已断开']. *)
Definition connectionLost : jsstring := [36830; 25509; 24050; 26029; 24320].

Definition handleConnectionStatusChange
    (status : Websocket.ConnectionStatus) (p : Page) : Page :=
  let p := set_connectionStatus status p in
  match status with
  | Websocket.connected => set_isSending false (set_isTyping false p)
  | Websocket.disconnected | Websocket.error =>
      set_toasts (toasts p ++ [Warning connectionLost])
        (set_isSending false (set_isTyping false p))
  | _ => p
  end.

(** The test at the head of [sendMessage]. *)
Definition canSend (p : Page) : bool :=
  truthy (JsText.trim (inputMessage p))
  && negb (isSending p) && isConnected p.

(** [sendMessage] of the component, with the manager it calls. *)
Definition sendMessage (out : Outside) (pw : Page * Websocket.World)
  : Page * Websocket.World :=
  let '(p, w) := pw in
  let message := JsText.trim (inputMessage p) in
  if negb (truthy message) || isSending p || negb (isConnected p) then (p, w)
  else
    let p := set_inputMessage [] p in
    let p := set_isSending true p in
    let p := set_isTyping true p in
    let p := addMessage message ChatStore.user None None None out p in
    match Websocket.sendMessage message w with
    | Websocket.Returned (success, w) =>
        (if negb success then set_isTyping false p else p, w)
    | Websocket.Thrown => (p, w)
    end.

(** [loadSessionHistory]: the history is not fetched; the messages are
    cleared and the greeting is shown. *)
Definition loadSessionHistory (out : Outside) (p : Page) : Page :=
  addMessage welcome ChatStore.ai None None None out
    (set_chatStore (ChatStore.clearMessages (chatStore p)) p).

(** [handleLogout], with the manager; [router] is what [useRouter()]
    returns inside [authStore.logout()].  The handler ends as that call,
    its last statement, ends: normally, or by the exception. *)
Definition handleLogout (router : option AuthStore.Router)
    (pw : Page * Websocket.World)
  : (Page * Websocket.World) * Websocket.outcome jsstring :=
  let '(p, w) := pw in
  let w := Websocket.disconnect w in
  let p :=
    set_sessionsStore (SessionsStore.clearSessions (sessionsStore p)) p in
  let '(auth, ended) := AuthStore.logout router (authStore p) in
  ((mkPage (view p) (inputMessage p) (connectionStatus p) (isSending p)
      (sessionsStore p) auth (createRequests p) (toasts p), w), ended).

(** *** Vocabulary of the properties of the component *)

(** A message shown for a frame of the socket: from the assistant, not
    streaming, and without any reference. *)
Definition plainReply (m : ChatStore.ChatMessage.t) : Prop :=
  ChatStore.ChatMessage.type m = ChatStore.ai
  /\ ChatStore.inProgress m = false
  /\ (ChatStore.ChatMessage.references m = None
      \/ ChatStore.ChatMessage.references m = Some []).

(** The message that [addMessage] builds. *)
Definition shown (content : jsstring) (type : ChatStore.Role) (time : N)
    (hasReferences : option bool) (references : option (list Reference))
    (out : Outside) : ChatStore.ChatMessage.t :=
  ChatStore.ChatMessage.mk (ChatStore.freshId (stamp out)) type content time
    hasReferences references None None None.

End ChatPage.

(** ** LoginPage.vue: the form *)

Module LoginPage.
Import JsString.

(** ['请输入用户名'] *)
Definition enterUsername : jsstring :=
  [35831; 36755; 20837; 29992; 25143; 21517].

(** ['用户名长度应在2-20个字符之间'] *)
Definition usernameLength : jsstring :=
  [29992; 25143; 21517; 38271; 24230; 24212; 22312; 50; 45; 50; 48; 20010;
   23383; 31526; 20043; 38388].

(** [validateForm()]: the verdict and the text of the alert, if any. *)
Definition validateForm (username : jsstring) : bool * option jsstring :=
  if negb (truthy (JsText.trim username)) then (false, Some enterUsername)
  else if Nat.ltb (length (JsText.trim username)) 2
          || Nat.ltb 20 (length (JsText.trim username))
       then (false, Some usernameLength)
       else (true, None).

End LoginPage.

(** ** The knowledge-base component: files, chunks and their selection *)

Module Knowledge.
Import JsString.

(** [interface ChunkData] *)
Record ChunkData := {
  id : jsstring;
  page_content : jsstring;
  source : jsstring;
  file_type : option jsstring;
  section : option jsstring;
  headers : list jsstring;
  chunk_index : Z;
  total_chunks : option Z;
  processed_at : option jsstring;
  content_length : option Z
}.

(** [interface FileData] *)
Record FileData := {
  name : jsstring;
  extension : jsstring;
  chunks : list ChunkData
}.

(** A point of the answer of the server, and its optional payload. *)
Record Payload := {
  p_source : option jsstring;
  p_page_content : option jsstring;
  p_content : option jsstring;
  p_file_type : option jsstring;
  p_section : option jsstring;
  p_headers : option (list jsstring);
  p_chunk_index : option Z;
  p_total_chunks : option Z;
  p_processed_at : option jsstring;
  p_content_length : option Z
}.

Record Point := {
  point_id : jsstring;
  payload : option Payload
}.

(** [point.payload?.field] *)
Definition field {A} (f : Payload -> option A) (p : Point) : option A :=
  match payload p with Some pl => f pl | None => None end.

Definition orString (a : option jsstring) (b : jsstring) : jsstring :=
  match a with
  | Some s => if truthy s then s else b
  | None => b
  end.

Definition orNumber (a : option Z) (b : Z) : Z :=
  match a with
  | Some n => if Z.eqb n 0 then b else n
  | None => b
  end.

Definition sourceOf (p : Point) : jsstring :=
  orString (field p_source p) (lit "unknown").

(** [source.split('.').pop()?.toLowerCase() || 'txt']; the lower-casing of
    the platform is a parameter. *)
Definition extensionOf (toLowerCase : jsstring -> jsstring) (src : jsstring)
  : jsstring :=
  orString (option_map toLowerCase (last (split 46 src))) (lit "txt").

(** The chunk pushed for a point. *)
Definition chunkOf (p : Point) : ChunkData :=
  {| id := point_id p;
     page_content :=
       orString (field p_page_content p) (orString (field p_content p) []);
     source := sourceOf p;
     file_type := field p_file_type p;
     section := field p_section p;
     headers := default [] (field p_headers p);
     chunk_index := orNumber (field p_chunk_index p) 0;
     total_chunks := field p_total_chunks p;
     processed_at := field p_processed_at p;
     content_length := field p_content_length p |}.

(** [fileMap.get(source)!.chunks.push(chunk)], after
    [if (!fileMap.has(source)) fileMap.set(source, ...)]: the map keeps
    its keys in insertion order. *)
Fixpoint pushChunk (src ext : jsstring) (c : ChunkData) (files : list FileData)
  : list FileData :=
  match files with
  | [] => [{| name := src; extension := ext; chunks := [c] |}]
  | f :: rest =>
      if bool_decide (name f = src)
      then {| name := name f; extension := extension f;
              chunks := chunks f ++ [c] |} :: rest
      else f :: pushChunk src ext c rest
  end.

(** [chunks.sort((a, b) => a.chunk_index - b.chunk_index)]: the sort of
    the platform is stable, so its result is that of a stable insertion
    sort. *)
Fixpoint insertChunk (c : ChunkData) (l : list ChunkData) : list ChunkData :=
  match l with
  | [] => [c]
  | x :: rest =>
      if Z.leb (chunk_index c) (chunk_index x) then c :: x :: rest
      else x :: insertChunk c rest
  end.

Fixpoint sortChunks (l : list ChunkData) : list ChunkData :=
  match l with
  | [] => []
  | c :: rest => insertChunk c (sortChunks rest)
  end.

(** The files that [loadFilesByCollection] shows for the points of a
    successful answer. *)
Definition groupPoints (toLowerCase : jsstring -> jsstring)
    (points : list Point) : list FileData :=
  map (fun f => {| name := name f; extension := extension f;
                   chunks := sortChunks (chunks f) |})
    (fold_left
       (fun files p =>
          pushChunk (sourceOf p) (extensionOf toLowerCase (sourceOf p))
            (chunkOf p) files)
       points []).

(** The selection of chunks of the component. *)
Record Selection := {
  shown : list ChunkData;      (* chunks *)
  selectedChunks : list jsstring;
  selectAllChunks : bool
}.

(** [selectedChunks.indexOf(chunkId)] and [splice(index, 1)]: the list
    without the first occurrence; [None] when [indexOf] gives -1. *)
Fixpoint removeId (chunkId : jsstring) (l : list jsstring)
  : option (list jsstring) :=
  match l with
  | [] => None
  | x :: rest =>
      if bool_decide (x = chunkId) then Some rest
      else match removeId chunkId rest with
           | Some rest' => Some (x :: rest')
           | None => None
           end
  end.

Definition toggleChunkSelection (chunkId : jsstring) (st : Selection)
  : Selection :=
  let selected :=
    match removeId chunkId (selectedChunks st) with
    | Some rest => rest
    | None => selectedChunks st ++ [chunkId]
    end in
  {| shown := shown st;
     selectedChunks := selected;
     selectAllChunks :=
       Nat.eqb (length selected) (length (shown st))
       && Nat.ltb 0 (length (shown st)) |}.

Definition toggleSelectAll (st : Selection) : Selection :=
  {| shown := shown st;
     selectedChunks := if selectAllChunks st then map id (shown st) else [];
     selectAllChunks := selectAllChunks st |}.

(** *** Vocabulary of the properties of the file list *)

(** Chunks in the order of their index. *)
Definition byIndex (a b : ChunkData) : Prop :=
  (chunk_index a <= chunk_index b)%Z.

(** A file of the list: it has chunks, and they are its own. *)
Definition ownChunks (f : FileData) : Prop :=
  chunks f <> [] /\ Forall (fun c => source c = name f) (chunks f).

End Knowledge.

(** * Properties *)

(** ** Strings: split, join, includes *)

Section StringFacts.
Import JsString.

Lemma split_nonempty sep s : split sep s <> [].
Proof.
  destruct s as [|c s]; simpl; [discriminate|].
  destruct (N.eqb c sep); [discriminate|].
  destruct (split sep s); discriminate.
Qed.

Lemma join_cons_head sep c l ls :
  join sep ((c :: l) :: ls) = c :: join sep (l :: ls).
Proof. simpl. destruct ls; reflexivity. Qed.

(** Joining the pieces with the separator gives the string back. *)
Lemma join_split sep s : join [sep] (split sep s) = s.
Proof.
  induction s as [|c s IH]; simpl; [reflexivity|].
  destruct (N.eqb_spec c sep) as [->|Hne].
  - destruct (split sep s) eqn:E; [by apply split_nonempty in E|].
    simpl in *. by rewrite IH.
  - destruct (split sep s) as [|l ls] eqn:E; [by apply split_nonempty in E|].
    rewrite join_cons_head. by rewrite IH.
Qed.

(** No piece contains the separator. *)
Lemma split_no_sep sep s l : In l (split sep s) -> ~ In sep l.
Proof.
  revert l. induction s as [|c s IH]; simpl; intros l Hin.
  - destruct Hin as [<-|[]]. intros [].
  - destruct (N.eqb_spec c sep) as [->|Hne].
    + destruct Hin as [<-|Hin]; [intros []|by apply IH].
    + destruct (split sep s) as [|l0 ls] eqn:E.
      * destruct Hin as [<-|[]]. intros [->|[]]. congruence.
      * destruct Hin as [<-|Hin].
        -- intros [->|Hs]; [congruence|]. apply (IH l0); [by left|done].
        -- apply IH. by right.
Qed.

(** Splitting distributes over a separator in the middle. *)
Lemma split_app_sep sep a b :
  split sep (a ++ sep :: b) = split sep a ++ split sep b.
Proof.
  induction a as [|c a IH]; simpl.
  - by rewrite N.eqb_refl.
  - destruct (N.eqb c sep); [by rewrite IH|].
    rewrite IH. destruct (split sep a) eqn:E; [by apply split_nonempty in E|].
    reflexivity.
Qed.

Lemma startsWith_spec s p :
  startsWith s p = true <-> exists rest, s = p ++ rest.
Proof.
  revert s. induction p as [|a p IH]; intros s; simpl.
  - split; [intros _; by exists s|done].
  - destruct s as [|b s].
    + split; [done|intros [rest Hr]; discriminate].
    + rewrite andb_true_iff, N.eqb_eq, IH. split.
      * intros [-> [rest ->]]. by exists rest.
      * intros [rest Hr]. injection Hr as -> ->. split; [done|by exists rest].
Qed.

Lemma includes_spec s p :
  includes s p = true <-> exists pre post, s = pre ++ p ++ post.
Proof.
  induction s as [|c s IH]; simpl.
  - rewrite orb_false_r, startsWith_spec. split.
    + intros [rest Hr]. by exists [], rest.
    + intros [pre [post Hr]]. destruct pre; simpl in Hr.
      * by exists post.
      * discriminate.
  - rewrite orb_true_iff, startsWith_spec, IH. split.
    + intros [[rest Hr]|[pre [post ->]]].
      * by exists [], rest.
      * by exists (c :: pre), post.
    + intros [pre [post Hr]]. destruct pre as [|c' pre]; simpl in Hr.
      * left. by exists post.
      * right. injection Hr as -> ->. by exists pre, post.
Qed.

(** The first piece of a split starts the string. *)
Lemma split_head sep s l ls :
  split sep s = l :: ls -> exists post, s = l ++ post.
Proof.
  revert l ls. induction s as [|c s IH]; simpl; intros l ls E.
  - injection E as <- <-. by exists [].
  - destruct (N.eqb c sep).
    + injection E as <- <-. by exists (c :: s).
    + destruct (split sep s) as [|l0 ls0] eqn:E0; [by apply split_nonempty in E0|].
      injection E as <- <-.
      destruct (IH _ _ eq_refl) as [post ->]. by exists post.
Qed.

(** Every piece of a split is a contiguous run of the string. *)
Lemma split_piece sep s l :
  In l (split sep s) -> exists pre post, s = pre ++ l ++ post.
Proof.
  revert l. induction s as [|c s IH]; simpl; intros l Hin.
  - destruct Hin as [<-|[]]. by exists [], [].
  - destruct (N.eqb_spec c sep) as [->|Hne].
    + destruct Hin as [<-|Hin].
      * by exists [], (sep :: s).
      * destruct (IH _ Hin) as [pre [post ->]]. by exists (sep :: pre), post.
    + destruct (split sep s) as [|l0 ls] eqn:E; [by apply split_nonempty in E|].
      destruct Hin as [<-|Hin].
      * destruct (split_head _ _ _ _ E) as [post ->]. by exists [], post.
      * destruct (IH l (or_intror Hin)) as [pre [post ->]].
        by exists (c :: pre), post.
Qed.

(** A string that occurs in a piece occurs in the whole. *)
Lemma includes_piece sep s l p :
  In l (split sep s) -> includes l p = true -> includes s p = true.
Proof.
  intros Hin Hl. apply includes_spec.
  destruct (split_piece _ _ _ Hin) as [pre [post ->]].
  apply includes_spec in Hl as [a [b ->]].
  exists (pre ++ a), (b ++ post). by rewrite <- !app_assoc.
Qed.

End StringFacts.

(** ** The matcher: a match needs every character the pattern demands *)

Section RegexFacts.
Import JsString Regex.

Lemma first_down_Some {A} (f : nat -> option A) lo hi r :
  first_down f lo hi = Some r ->
  exists k, (lo <= k <= hi)%nat /\ f k = Some r.
Proof.
  induction hi as [|hi IH]; simpl.
  - destruct (Nat.ltb_spec 0 lo); [done|].
    destruct (f 0%nat) eqn:E; [|done].
    intros [= <-]. exists 0%nat. split; [lia|done].
  - destruct (Nat.ltb_spec (S hi) lo); [done|].
    destruct (f (S hi)) eqn:E.
    + intros [= <-]. exists (S hi). split; [lia|done].
    + intros Hr. destruct (IH Hr) as [k [Hk Hf]].
      exists k. split; [lia|done].
Qed.

Lemma run_len_head cls s :
  (1 <= run_len cls s)%nat -> exists c s', s = c :: s' /\ cls c = true.
Proof.
  destruct s as [|c s]; simpl; [lia|].
  destruct (cls c) eqn:E; [|lia]. intros _. by exists c, s.
Qed.

Lemma q_max_le q n : (q_max q n <= n)%nat.
Proof. unfold q_max. destruct q; lia. Qed.

Lemma In_drop {A} (x : A) k l : In x (drop k l) -> In x l.
Proof.
  intros Hin. rewrite <- (take_drop k l). apply in_or_app. by right.
Qed.

(** An item that is not starred takes at least one code unit of its
    class, wherever it stands in the pattern. *)
Lemma m_items_needs its1 cls q cap its2 :
  q <> Star ->
  forall at_start s r,
    m_items (its1 ++ Rep cls q cap :: its2) at_start s = Some r ->
    exists c, In c s /\ cls c = true.
Proof.
  intros Hq. induction its1 as [|it its1 IH]; intros at_start s r; simpl.
  - intros Hm. apply first_down_Some in Hm as [k [[Hlo Hhi] _]].
    assert (1 <= run_len cls s)%nat as Hrun.
    { pose proof (q_max_le q (run_len cls s)). destruct q; simpl in *; try lia.
      congruence. }
    destruct (run_len_head _ _ Hrun) as [c [s' [-> Hc]]].
    exists c. split; [by left|done].
  - destruct it as [|cls' q' cap'].
    + destruct at_start; [apply IH|done].
    + intros Hm. apply first_down_Some in Hm as [k [_ Hk]].
      destruct (m_items (its1 ++ Rep cls q cap :: its2)
                  (at_start && Nat.eqb k 0) (drop k s)) as [[n caps]|] eqn:E;
        [|done].
      destruct (IH _ _ _ E) as [c [Hin Hc]].
      exists c. split; [by eapply In_drop|done].
Qed.

Lemma exec_from_needs its1 cls q cap its2 :
  q <> Star ->
  forall s at_start r,
    exec_from (its1 ++ Rep cls q cap :: its2) at_start s = Some r ->
    exists c, In c s /\ cls c = true.
Proof.
  intros Hq. induction s as [|c0 s IH]; intros at_start r Hr;
    cbn [exec_from] in Hr.
  - destruct (m_items _ at_start []) as [[n caps]|] eqn:E; [|done].
    by eapply m_items_needs.
  - destruct (m_items _ at_start (c0 :: s)) as [[n caps]|] eqn:E.
    + by eapply m_items_needs.
    + destruct (IH _ _ Hr) as [c [Hin Hc]].
      exists c. split; [by right|done].
Qed.

End RegexFacts.

(** ** The reference extractor *)

Section ReferenceExtractor.
Import JsString Regex ChatInterface.

(** The citation pattern asks for a line feed inside the text it is
    applied to. *)
Lemma refRegex_needs_LF s r : exec refRegex s = Some r -> In LF s.
Proof.
  intros Hr.
  destruct (exec_from_needs
              [Bol; Rep digit Plus true; Rep (is_char 46) One false;
               Rep space Plus false; Rep dot Plus true; Rep space Star false]
              (is_char LF) One false
              [Rep space Plus false; Rep dot Plus true]
              ltac:(discriminate) s true r Hr) as [c [Hin Hc]].
  unfold is_char in Hc. apply N.eqb_eq in Hc. by subst c.
Qed.

(** On a line of [content.split('\n')] the pattern never matches. *)
Lemma refRegex_line content line :
  In line (split LF content) -> exec refRegex line = None.
Proof.
  intros Hin. destruct (exec refRegex line) eqn:E; [|done].
  apply refRegex_needs_LF in E. by apply split_no_sep in Hin.
Qed.

Lemma parseLoop_refs lines st :
  (forall line, In line lines -> exec refRegex line = None) ->
  refs (fold_left parseStep lines st) = refs st.
Proof.
  revert st. induction lines as [|l lines IH]; intros st Hall; simpl; [done|].
  rewrite IH by (intros; apply Hall; by right).
  unfold parseStep. rewrite (Hall l) by (by left).
  by destruct (includes l marker), (inReferenceSection st).
Qed.

(** Whatever the input, [parseReferences] returns no citation. *)
Lemma parseReferences_no_citation content :
  references (parseReferences content) = [].
Proof.
  unfold parseReferences, parseLoop. simpl.
  rewrite parseLoop_refs; [done|]. intros line. apply refRegex_line.
Qed.

Lemma extractLoop_refs lines st :
  (forall line, In line lines -> exec refRegex line = None) ->
  snd (fold_left extractStep lines st) = snd st.
Proof.
  revert st. induction lines as [|l lines IH]; intros st Hall; simpl; [done|].
  rewrite IH by (intros; apply Hall; by right).
  destruct st as [b rs]. unfold extractStep. rewrite (Hall l) by (by left).
  by destruct (includes l marker), b.
Qed.


(** Before the marker every line is kept as visible text. *)
Lemma parseLoop_plain lines st :
  inReferenceSection st = false ->
  (forall line, In line lines -> includes line marker = false) ->
  fold_left parseStep lines st =
    {| inReferenceSection := false;
       textLines := textLines st ++ lines;
       refs := refs st |}.
Proof.
  revert st. induction lines as [|l lines IH]; intros st Hst Hall; simpl.
  - rewrite app_nil_r. destruct st; simpl in *; by subst.
  - assert (parseStep st l =
              {| inReferenceSection := false;
                 textLines := textLines st ++ [l];
                 refs := refs st |}) as ->.
    { unfold parseStep. rewrite (Hall l) by (by left). by rewrite Hst. }
    rewrite IH; simpl; [|done|intros; apply Hall; by right].
    by rewrite <- app_assoc.
Qed.

(** The pattern does extract the citation when it is given both lines of
    the record at once. *)
Example refRegex_on_record :
  option_map refOfMatch (exec refRegex record) =
    Some {| source := lit "doc.pdf"; content_preview := lit "preview text" |}.
Proof. vm_compute. reflexivity. Qed.

(** C1 (what the code does on the inputs of the claim): for a body made
    of visible text without marker, the marker line and the citation
    record "1. doc.pdf" with its indented preview line, [parseReferences]
    returns the visible text without the marker line and what follows,
    and an EMPTY citation list, not the citation of the record: each
    line is matched alone against a pattern that needs a line feed. *)
Theorem parseReferences_record_lost visible :
  checkHasReferences visible = false ->
  parseReferences (withRecord visible) =
    {| text := visible; references := [] |}.
Proof.
  intros Hvis. unfold checkHasReferences in Hvis.
  unfold parseReferences, parseLoop, withRecord.
  rewrite split_app_sep, fold_left_app.
  rewrite (parseLoop_plain (split LF visible)); cbn [textLines refs app]; [|done|].
  - replace (split LF (marker ++ LF :: record))
      with [marker; lit "1. doc.pdf"; lit "   preview text"]
      by (vm_compute; reflexivity).
    cbn [fold_left].
    replace (parseStep _ marker) with
      {| inReferenceSection := true; textLines := split LF visible; refs := [] |}
      by (unfold parseStep; by replace (includes marker marker) with true
            by (vm_compute; reflexivity)).
    replace (parseStep _ (lit "1. doc.pdf")) with
      {| inReferenceSection := true; textLines := split LF visible; refs := [] |}.
    2:{ unfold parseStep.
        replace (includes (lit "1. doc.pdf") marker) with false
          by (vm_compute; reflexivity).
        by replace (exec refRegex (lit "1. doc.pdf")) with (@None (list jsstring))
          by (vm_compute; reflexivity). }
    replace (parseStep _ (lit "   preview text")) with
      {| inReferenceSection := true; textLines := split LF visible; refs := [] |}.
    2:{ unfold parseStep.
        replace (includes (lit "   preview text") marker) with false
          by (vm_compute; reflexivity).
        by replace (exec refRegex (lit "   preview text"))
          with (@None (list jsstring)) by (vm_compute; reflexivity). }
    cbn [fold_left textLines refs]. by rewrite join_split.
  - intros line Hin. destruct (includes line marker) eqn:E; [|done].
    by rewrite (includes_piece _ _ _ _ Hin E) in Hvis.
Qed.

Lemma parseReferences_record_lost_witness :
  parseReferences (withRecord (lit "answer")) =
    {| text := lit "answer"; references := [] |}.
Proof.
  apply (parseReferences_record_lost (lit "answer")).
  vm_compute. reflexivity.
Defined.

(** C8: when no line of the input includes the marker, [parseReferences]
    returns the whole input as the visible text and no citation. *)
Theorem parseReferences_without_marker content :
  (forall line, In line (split LF content) -> includes line marker = false) ->
  parseReferences content = {| text := content; references := [] |}.
Proof.
  intros Hall. unfold parseReferences, parseLoop.
  rewrite parseLoop_plain by done. simpl. by rewrite join_split.
Qed.

Lemma parseReferences_without_marker_witness :
  parseReferences (lit "line one" ++ [LF] ++ lit "line two") =
    {| text := lit "line one" ++ [LF] ++ lit "line two"; references := [] |}.
Proof.
  apply (parseReferences_without_marker
           (lit "line one" ++ [LF] ++ lit "line two")).
  intros line Hin. vm_compute in Hin.
  destruct Hin as [<-|[<-|[]]]; vm_compute; reflexivity.
Defined.

(** The same, for an input in which the marker does not occur at all
    (the test of [checkHasReferences]). *)
Lemma parseReferences_marker_free content :
  checkHasReferences content = false ->
  parseReferences content = {| text := content; references := [] |}.
Proof.
  intros Hc. unfold parseReferences, parseLoop.
  rewrite parseLoop_plain; simpl; [by rewrite join_split|done|].
  intros line Hin. destruct (includes line marker) eqn:E; [|done].
  unfold checkHasReferences in Hc.
  by rewrite (includes_piece _ _ _ _ Hin E) in Hc.
Qed.

End ReferenceExtractor.

(** ** The message store *)

Section MessageStore.
Import ChatStore ChatInterface.

(** C5: from an empty streaming slot, two calls with [isComplete = false]
    and one with [isComplete = true] append exactly one message, whose
    text is the content of the last call and which is no longer
    streaming, and leave the slot empty. *)
Theorem streaming_lifecycle st c1 c2 c3 id1 id2 id3 r1 r2 r3 a1 a2 a3 :
  streamingMessage st = None ->
  let st' :=
    addOrUpdateStreamingMessage c3 true id3 r3 a3
      (addOrUpdateStreamingMessage c2 false id2 r2 a2
         (addOrUpdateStreamingMessage c1 false id1 r1 a1 st)) in
  messages st' = messages st ++ [finalized a1 id1 c3 r3]
  /\ streamingMessage st' = None
  /\ ChatMessage.content (finalized a1 id1 c3 r3) = c3
  /\ inProgress (finalized a1 id1 c3 r3) = false.
Proof.
  intros Hslot. unfold addOrUpdateStreamingMessage.
  rewrite Hslot. simpl. repeat split.
Qed.

Lemma streaming_lifecycle_witness :
  let st' :=
    addOrUpdateStreamingMessage (lit "Hello") true (lit "s1") None
      {| freshId := lit "id3"; date := 3 |}
      (addOrUpdateStreamingMessage (lit "Hel") false (lit "s1") None
         {| freshId := lit "id2"; date := 2 |}
         (addOrUpdateStreamingMessage (lit "H") false (lit "s1") None
            {| freshId := lit "id1"; date := 1 |} empty)) in
  length (messages st') = 1%nat /\ streamingMessage st' = None.
Proof.
  destruct (streaming_lifecycle empty (lit "H") (lit "Hel") (lit "Hello")
              (lit "s1") (lit "s1") (lit "s1") None None None
              {| freshId := lit "id1"; date := 1 |}
              {| freshId := lit "id2"; date := 2 |}
              {| freshId := lit "id3"; date := 3 |} eq_refl)
    as (Hm & Hs & _ & _).
  split; [by rewrite Hm | exact Hs].
Defined.

Lemma wellFormed_empty : wellFormed empty.
Proof. split; [constructor|discriminate]. Qed.

Lemma wellFormed_apply st o :
  wellFormed st -> admissible o -> wellFormed (apply st o).
Proof.
  intros [Hlist Hslot] Hadm.
  destruct o as [message|content isComplete streamId references amb|]; simpl.
  - split; simpl; [|done].
    apply Forall_app. split; [done|]. by constructor.
  - unfold addOrUpdateStreamingMessage.
    destruct (streamingMessage st) as [sm|] eqn:E.
    + destruct isComplete; split; simpl.
      * apply Forall_app. split; [done|]. by constructor.
      * discriminate.
      * done.
      * intros sm' [= <-]. unfold inProgress. simpl.
        apply (Hslot sm eq_refl).
    + destruct isComplete; simpl; split; simpl; try done.
      * intros sm Hsm. congruence.
      * by intros sm [= <-].
  - split; simpl; [constructor|discriminate].
Qed.

Lemma reachable_wellFormed st : reachable st -> wellFormed st.
Proof.
  induction 1 as [|st o _ IH Hadm]; [apply wellFormed_empty|].
  by apply wellFormed_apply.
Qed.

Lemma filter_none {A} (f : A -> bool) l :
  Forall (fun x => f x = false) l -> List.filter f l = [].
Proof.
  induction 1 as [|x l Hx _ IH]; simpl; [done|]. by rewrite Hx.
Qed.

(** C6: in every state that [addMessage] (on messages that are not
    streaming), [addOrUpdateStreamingMessage] and [clearMessages] reach
    from the empty store, no entry of the message list is in progress,
    and among all the messages of the store (the list and the streaming
    slot, as [allMessages] shows them) at most one is in progress: the
    one in the slot. *)
Theorem single_in_progress st :
  reachable st ->
  Forall (fun m => inProgress m = false) (messages st)
  /\ (length (List.filter inProgress (allMessages st)) <= 1)%nat
  /\ List.filter inProgress (allMessages st) =
       match streamingMessage st with Some sm => [sm] | None => [] end.
Proof.
  intros Hr. destruct (reachable_wellFormed st Hr) as [Hlist Hslot].
  assert (List.filter inProgress (allMessages st) =
            match streamingMessage st with Some sm => [sm] | None => [] end)
    as Heq.
  { unfold allMessages. destruct (streamingMessage st) as [sm|].
    - rewrite List.filter_app, (filter_none _ _ Hlist). simpl.
      by rewrite (Hslot sm eq_refl).
    - by apply filter_none. }
  split; [done|]. split; [|done].
  rewrite Heq. destruct (streamingMessage st); simpl; lia.
Qed.

Lemma single_in_progress_witness :
  let st :=
    apply (apply (apply empty
      (AddOrUpdateStreamingMessage (lit "H") false (lit "s1") None
         {| freshId := lit "id1"; date := 1 |}))
      (AddOrUpdateStreamingMessage (lit "Hi") true (lit "s1") None
         {| freshId := lit "id2"; date := 2 |}))
      (AddOrUpdateStreamingMessage (lit "N") false (lit "s2") None
         {| freshId := lit "id3"; date := 3 |}) in
  (length (List.filter inProgress (allMessages st)) <= 1)%nat.
Proof.
  intros st.
  refine (proj1 (proj2 (single_in_progress st _))).
  repeat (apply reach_step; [|exact I]). apply reach_empty.
Defined.

End MessageStore.

(** ** The WebSocket manager *)

Section ManagerFacts.
Import JsString Websocket.

Lemma completions_app sid tr1 tr2 :
  completions sid (tr1 ++ tr2) = completions sid tr1 ++ completions sid tr2.
Proof.
  induction tr1 as [|e tr1 IH]; simpl; [done|].
  destruct e; try done. destruct isComplete; [|done].
  destruct (str_eqb messageId sid); [|done]. simpl. by rewrite IH.
Qed.

Lemma str_eqb_refl s : str_eqb s s = true.
Proof. unfold str_eqb. by apply bool_decide_eq_true. Qed.

Lemma completions_partial sid id content ls :
  completions sid (map (fun l => StreamCall l id content false) ls) = [].
Proof. induction ls as [|l ls IH]; simpl; done. Qed.

Lemma completions_complete sid content ls :
  completions sid (map (fun l => StreamCall l sid content true) ls) =
    map (fun l => (l, content)) ls.
Proof.
  induction ls as [|l ls IH]; simpl; [done|].
  by rewrite str_eqb_refl, IH.
Qed.

Lemma mergeReferences_content m b :
  Buf.content (mergeReferences m b) = Buf.content b.
Proof.
  unfold mergeReferences.
  destruct (Msg.has_references m) as [[]|], (Msg.references m); done.
Qed.

Lemma isStreamFrame_chunk sid m :
  truthy sid = true -> isChunkOf sid m -> isStreamFrame m = true.
Proof.
  intros Hsid [Hty Hid]. unfold isStreamFrame. rewrite Hid, Hty. simpl.
  rewrite Hsid, str_eqb_refl. by rewrite !orb_true_r.
Qed.

Lemma isStreamFrame_end sid m :
  truthy sid = true -> isEndOf sid m -> isStreamFrame m = true.
Proof.
  intros Hsid [Hty Hid]. unfold isStreamFrame. rewrite Hid, Hty. simpl.
  rewrite Hsid, str_eqb_refl. by rewrite !orb_true_r.
Qed.

(** A chunk appends its content to the buffer of its stream (creating the
    buffer when there is none) and completes nothing. *)
Lemma chunk_effect sid m w :
  truthy sid = true -> isChunkOf sid m ->
  let w' := handleMessage (Parsed m) w in
  bufferText w' sid = bufferText w sid ++ or_str (Msg.content m) []
  /\ streamListeners w' = streamListeners w
  /\ completions sid (trace w') = completions sid (trace w).
Proof.
  intros Hsid Hm. pose proof Hm as [Hty Hid].
  unfold handleMessage. rewrite (isStreamFrame_chunk _ _ Hsid Hm).
  unfold handleStreamMessage. rewrite Hid, Hsid, Hty.
  change (str_eqb (lit "stream_message") (lit "stream_start")) with false.
  rewrite str_eqb_refl. cbn [negb]. unfold notifyStream, bufferText. wsimpl.
  rewrite lookup_insert_eq, completions_app, completions_partial, app_nil_r.
  split; [|done].
  destruct (streamMessages w !! sid) as [b0|]; [|done].
  by rewrite mergeReferences_content.
Qed.

Lemma chunks_effect sid chunks : forall w,
  truthy sid = true -> Forall (isChunkOf sid) chunks ->
  let w' := run (map (fun m => SocketMessage (Parsed m)) chunks) w in
  bufferText w' sid = bufferText w sid ++ chunkText chunks
  /\ streamListeners w' = streamListeners w
  /\ completions sid (trace w') = completions sid (trace w).
Proof.
  induction chunks as [|m chunks IH]; intros w Hsid Hall.
  - unfold chunkText. simpl. by rewrite app_nil_r.
  - inversion Hall as [|? ? Hm Hrest]; subst.
    destruct (chunk_effect sid m w Hsid Hm) as (Hb & Hl & Hc).
    destruct (IH (handleMessage (Parsed m) w) Hsid Hrest) as (Hb' & Hl' & Hc').
    unfold run in *. cbn [map fold_left step]. rewrite Hb', Hl', Hc', Hb, Hl, Hc.
    unfold chunkText. simpl. by rewrite <- app_assoc.
Qed.

(** A [stream_end] frame notifies every stream listener once, with the
    final text. *)
Lemma end_effect sid e w :
  truthy sid = true -> isEndOf sid e ->
  completions sid (trace (handleMessage (Parsed e) w)) =
    completions sid (trace w)
    ++ map (fun l => (l, finalText (bufferText w sid) e)) (streamListeners w).
Proof.
  intros Hsid He. pose proof He as [Hty Hid].
  unfold handleMessage. rewrite (isStreamFrame_end _ _ Hsid He).
  unfold handleStreamMessage. rewrite Hid, Hsid, Hty.
  change (str_eqb (lit "stream_end") (lit "stream_start")) with false.
  change (str_eqb (lit "stream_end") (lit "stream_message")) with false.
  rewrite str_eqb_refl. cbn [negb]. unfold bufferText, finalText.
  destruct (streamMessages w !! sid) as [b0|].
  - unfold setTimeout, notifyStream. wsimpl.
    rewrite !completions_app, completions_complete. simpl. rewrite app_nil_r.
    f_equal. rewrite mergeReferences_content. simpl.
    destruct (Msg.content e) as [[|c s]|]; simpl; try done;
      by destruct (Buf.content b0).
  - unfold notifyStream. wsimpl.
    rewrite completions_app, completions_complete.
    by destruct (Msg.content e) as [[|c s]|].
Qed.

Lemma streamCalls_app tr1 tr2 :
  streamCalls (tr1 ++ tr2) = streamCalls tr1 ++ streamCalls tr2.
Proof. apply List.filter_app. Qed.

Lemma streamCalls_messageCalls m ls :
  streamCalls (map (fun l => MessageCall l m) ls) = [].
Proof. induction ls as [|l ls IH]; simpl; done. Qed.

(** C10: a frame without stream identifier (absent, or the empty string),
    whatever its type and so also when the type is [stream_start],
    [stream_message] or [stream_end], is not routed to the reassembler
    (which would ignore it); it is delivered to every message listener
    instead; no buffer and no timer is created or changed and no stream
    listener is called. *)
Theorem frame_without_stream_id m w :
  truthy_opt (Msg.stream_id m) = false ->
  isStreamFrame m = false
  /\ handleStreamMessage m w = w
  /\ handleMessage (Parsed m) w =
       emit (map (fun l => MessageCall l m) (messageListeners w)) w
  /\ streamMessages (handleMessage (Parsed m) w) = streamMessages w
  /\ timers (handleMessage (Parsed m) w) = timers w
  /\ streamCalls (trace (handleMessage (Parsed m) w)) = streamCalls (trace w).
Proof.
  intros Hid.
  assert (isStreamFrame m = false) as Hf by (unfold isStreamFrame; by rewrite Hid).
  split; [done|]. split.
  { unfold handleStreamMessage. destruct (Msg.stream_id m) as [s|]; [|done].
    simpl in Hid. by rewrite Hid. }
  unfold handleMessage. rewrite Hf. wsimpl.
  repeat split.
  by rewrite streamCalls_app, streamCalls_messageCalls, app_nil_r.
Qed.

Lemma frame_without_stream_id_witness :
  streamMessages
    (handleMessage (Parsed (frame "stream_end" None (Some (lit "late"))))
       (initial [7%nat] [8%nat])) = ∅
  /\ trace
       (handleMessage (Parsed (frame "stream_end" None (Some (lit "late"))))
          (initial [7%nat] [8%nat])) =
     [MessageCall 8 (frame "stream_end" None (Some (lit "late")))].
Proof.
  destruct (frame_without_stream_id
              (frame "stream_end" None (Some (lit "late")))
              (initial [7%nat] [8%nat]) eq_refl)
    as (_ & _ & Hh & Hs & _ & _).
  split; [exact Hs|]. rewrite Hh. reflexivity.
Defined.

(** C7: [sendMessage] always returns, never throws.  It returns [false]
    and does nothing when the socket is missing or not open; it returns
    [true] exactly when the envelope (type "message", the content, the
    timestamp) was handed to the socket; when [send] throws, the error is
    caught and the result is [false]. *)
Theorem sendMessage_capability content w :
  exists b w',
    sendMessage content w = Returned (b, w')
    /\ (isConnected w = false -> b = false /\ w' = w)
    /\ (b = true <-> trace w' = trace w ++ [SocketSend (envelope content w)])
    /\ (b = false -> w' = w)
    /\ (isConnected w = true -> b = negb (sendThrows w)).
Proof.
  unfold sendMessage, socketSend. fold (envelope content w).
  destruct (isConnected w) eqn:Hc; simpl.
  - destruct (sendThrows w) eqn:Ht.
    + exists false, w. repeat split; try done.
      intros Htr. apply (f_equal (@length _)) in Htr.
      rewrite length_app in Htr. simpl in Htr. lia.
    + exists true, (emit [SocketSend (envelope content w)] w).
      repeat split; done.
  - exists false, w. repeat split; try done.
    intros Htr. apply (f_equal (@length _)) in Htr.
    rewrite length_app in Htr. simpl in Htr. lia.
Qed.

Lemma sendMessage_capability_witness :
  sendMessage (lit "hi") (onopen (connect (lit "token") (initial [] []))) =
    Returned
      (true,
       emit [SocketSend (envelope (lit "hi") (initial [] []))]
         (onopen (connect (lit "token") (initial [] [])))).
Proof.
  destruct (sendMessage_capability (lit "hi")
              (onopen (connect (lit "token") (initial [] []))))
    as (b & w' & Hs & _ & _ & _ & Hb).
  rewrite Hs. specialize (Hb eq_refl). simpl in Hb. subst b.
  vm_compute in Hs. injection Hs as <-. vm_compute. reflexivity.
Defined.

End ManagerFacts.

(** ** A completion that finds the streaming slot empty *)

Section LostCompletion.
Import JsString Websocket ChatStore ChatInterface.

(** A [stream_end] frame for a stream without buffer is announced to the
    stream listeners as a completion, with the content of the frame. *)
Lemma end_without_buffer sid e w :
  truthy sid = true -> isEndOf sid e ->
  streamMessages w !! sid = None ->
  handleMessage (Parsed e) w =
    notifyStream sid (or_str (Msg.content e) []) true w.
Proof.
  intros Hsid He Hnone. pose proof He as [Hty Hid].
  unfold handleMessage. rewrite (isStreamFrame_end _ _ Hsid He).
  unfold Websocket.handleStreamMessage. rewrite Hid, Hsid, Hty, Hnone.
  change (str_eqb (lit "stream_end") (lit "stream_start")) with false.
  change (str_eqb (lit "stream_end") (lit "stream_message")) with false.
  by rewrite str_eqb_refl.
Qed.

(** C9: a call of [addOrUpdateStreamingMessage] with [isComplete = true]
    while the streaming slot is empty returns the store unchanged: nothing
    is appended, the slot stays empty, content and references are dropped.
    So the listener of the component, called for a completed stream while
    the slot is empty, leaves the store as it was. *)
Theorem completion_without_slot content streamId references amb st :
  streamingMessage st = None ->
  addOrUpdateStreamingMessage content true streamId references amb st = st
  /\ forall ui,
       chatStore ui = st ->
       chatStore (ChatInterface.handleStreamMessage streamId content true amb ui)
       = st.
Proof.
  intros Hslot.
  assert (forall refs,
            addOrUpdateStreamingMessage content true streamId refs amb st = st)
    as Hsame.
  { intros refs. unfold addOrUpdateStreamingMessage. by rewrite Hslot. }
  split; [apply Hsame|].
  intros ui Hui. unfold ChatInterface.handleStreamMessage. simpl. rewrite Hui. apply Hsame.
Qed.

Lemma completion_without_slot_witness :
  addOrUpdateStreamingMessage (lit "final text") true (lit "s1")
    (Some [{| source := lit "doc.pdf"; content_preview := lit "p" |}])
    {| freshId := lit "id1"; date := 1 |} empty = empty.
Proof.
  exact (proj1 (completion_without_slot (lit "final text") (lit "s1")
                  (Some [{| source := lit "doc.pdf";
                            content_preview := lit "p" |}])
                  {| freshId := lit "id1"; date := 1 |} empty eq_refl)).
Defined.

End LostCompletion.

(** ** The grace window after the end of a stream *)

Section GraceWindow.
Import JsString Websocket.

Lemma connect_streamMessages tok w :
  streamMessages (connect tok w) = streamMessages w.
Proof.
  unfold connect, newWebSocket, updateStatus.
  destruct (isConnected w); wsimpl; [done|].
  by destruct (ctorThrows w).
Qed.

Lemma runTimer_keeps_none sid t w :
  streamMessages w !! sid = None ->
  streamMessages (runTimer t w) !! sid = None.
Proof.
  intros Hnone. unfold runTimer. destruct (action t) as [|sid'].
  - destruct (_ && _); [by rewrite connect_streamMessages|done].
  - wsimpl. rewrite lookup_delete. by case_decide.
Qed.

Lemma timers_keep_none sid l : forall w,
  streamMessages w !! sid = None ->
  streamMessages (fold_left (fun w tm => runTimer tm w) l w) !! sid = None.
Proof.
  induction l as [|t l IH]; intros w Hnone; simpl; [done|].
  apply IH. by apply runTimer_keeps_none.
Qed.

Lemma timers_delete sid l : forall w,
  (exists t, In t l /\ action t = DeleteStream sid) ->
  streamMessages (fold_left (fun w tm => runTimer tm w) l w) !! sid = None.
Proof.
  induction l as [|t0 l IH]; intros w [t [Hin Ha]]; [destruct Hin|].
  destruct Hin as [->|Hin]; simpl.
  - apply timers_keep_none. unfold runTimer. rewrite Ha. wsimpl.
    apply lookup_delete_eq.
  - apply IH. by exists t.
Qed.

Lemma In_insertTimer t q : In t (insertTimer t q).
Proof.
  induction q as [|t' q IH]; simpl; [by left|].
  destruct (due t' <=? due t); [by right|by left].
Qed.

Lemma In_insertTimer_old t t' q : In t q -> In t (insertTimer t' q).
Proof.
  induction q as [|t0 q IH]; simpl; [done|]. intros Hin.
  destruct (due t0 <=? due t').
  - destruct Hin as [->|Hin]; [by left|right; by apply IH].
  - by right.
Qed.

Lemma Forall_insertTimer (P : timer -> Prop) t q :
  P t -> Forall P q -> Forall P (insertTimer t q).
Proof.
  intros Ht. induction 1 as [|t0 q H0 Hq IH]; simpl; [by repeat constructor|].
  destruct (due t0 <=? due t); by repeat constructor.
Qed.


(** After [dt] milliseconds a stream has no buffer if it had none, or if
    the timer that deletes it was due. *)
Lemma elapse_keeps_none sid dt w :
  streamMessages w !! sid = None ->
  streamMessages (elapse dt w) !! sid = None.
Proof. intros Hnone. unfold elapse. by apply timers_keep_none. Qed.

Lemma elapse_deletes sid dt w t :
  In t (timers w) -> action t = DeleteStream sid -> due t <= now w + dt ->
  streamMessages (elapse dt w) !! sid = None.
Proof.
  intros Hin Ha Hdue. unfold elapse. apply timers_delete.
  exists t. split; [|done]. apply filter_In. split; [done|].
  unfold isDue. by apply N.leb_le.
Qed.

(** A [stream_end] frame leaves its stream without buffer, or with a
    timer that deletes the buffer 5000 ms later. *)
Lemma end_schedules_deletion sid e w :
  truthy sid = true -> isEndOf sid e ->
  let w1 := handleMessage (Parsed e) w in
  now w1 = now w
  /\ (streamMessages w1 !! sid = None
      \/ exists t, In t (timers w1) /\ action t = DeleteStream sid
                   /\ due t = now w + graceWindow).
Proof.
  intros Hsid He. pose proof He as [Hty Hid].
  destruct (streamMessages w !! sid) as [b0|] eqn:Hb.
  - cbv zeta. unfold handleMessage. rewrite (isStreamFrame_end _ _ Hsid He).
    unfold handleStreamMessage. rewrite Hid, Hsid, Hty, Hb.
    change (str_eqb (lit "stream_end") (lit "stream_start")) with false.
    change (str_eqb (lit "stream_end") (lit "stream_message")) with false.
    rewrite str_eqb_refl. cbn [negb]. unfold setTimeout, notifyStream. wsimpl.
    split; [done|]. right. eexists. split; [apply In_insertTimer|]. by split.
  - cbv zeta. rewrite (end_without_buffer sid e w Hsid He Hb).
    unfold notifyStream. wsimpl. split; [done|]. by left.
Qed.

(** C3 (as the code has it): once 5000 ms or more have passed after a
    [stream_end] frame, its stream has no buffer; a late duplicate
    [stream_end] frame of that stream is then NOT dropped: it creates no
    buffer and no timer, but every stream listener is called once more
    with the content of the duplicate (or the empty string) and
    completion [true]. *)
Theorem late_duplicate_end sid e dup dt w :
  truthy sid = true -> isEndOf sid e -> isEndOf sid dup ->
  graceWindow <= dt ->
  let w2 := elapse dt (handleMessage (Parsed e) w) in
  streamMessages w2 !! sid = None
  /\ handleMessage (Parsed dup) w2 =
       notifyStream sid (or_str (Msg.content dup) []) true w2
  /\ streamMessages (handleMessage (Parsed dup) w2) = streamMessages w2
  /\ timers (handleMessage (Parsed dup) w2) = timers w2
  /\ completions sid (trace (handleMessage (Parsed dup) w2)) =
       completions sid (trace w2)
       ++ map (fun l => (l, or_str (Msg.content dup) [])) (streamListeners w2).
Proof.
  intros Hsid He Hdup Hdt w2.
  assert (streamMessages w2 !! sid = None) as Hnone.
  { destruct (end_schedules_deletion sid e w Hsid He) as [Hnow [Hn|[t (Hin & Ha & Hd)]]].
    - by apply elapse_keeps_none.
    - apply (elapse_deletes sid dt _ t Hin Ha). rewrite Hd, Hnow. lia. }
  split; [done|].
  rewrite (end_without_buffer sid dup w2 Hsid Hdup Hnone).
  unfold notifyStream. wsimpl. repeat split.
  by rewrite completions_app, completions_complete.
Qed.

Lemma late_duplicate_end_witness :
  let e := frame "stream_end" (Some (lit "s1")) (Some (lit "X")) in
  let w := handleMessage
             (Parsed (frame "stream_start" (Some (lit "s1")) None))
             (initial [7%nat] []) in
  let w2 := elapse 5000 (handleMessage (Parsed e) w) in
  streamMessages w2 !! lit "s1" = None
  /\ completions (lit "s1") (trace (handleMessage (Parsed e) w2)) =
       completions (lit "s1") (trace w2)
       ++ map (fun l => (l, lit "X")) (streamListeners w2).
Proof.
  intros e w w2.
  destruct (late_duplicate_end (lit "s1") e e 5000 w eq_refl
              (conj eq_refl eq_refl) (conj eq_refl eq_refl)
              ltac:(vm_compute; discriminate))
    as (Hn & _ & _ & _ & Hc).
  split; [exact Hn | exact Hc].
Defined.

(** C3 as the spec states it fails: a stream is started and ended with
    content "X"; 5000 ms later the buffer is gone, and the duplicate end
    frame calls the stream listener again. *)
Lemma late_duplicate_end_not_dropped :
  ~ droppedSilently (lit "s1")
      (frame "stream_end" (Some (lit "s1")) (Some (lit "X")))
      (frame "stream_end" (Some (lit "s1")) (Some (lit "X")))
      5000
      (handleMessage (Parsed (frame "stream_start" (Some (lit "s1")) None))
         (initial [7%nat] [])).
Proof.
  intros [_ Hcalls]. vm_compute in Hcalls. discriminate Hcalls.
Qed.

(** *** Reassembly while time passes *)

Lemma connect_stream_state sid tok w :
  streamListeners (connect tok w) = streamListeners w
  /\ timers (connect tok w) = timers w
  /\ completions sid (trace (connect tok w)) = completions sid (trace w).
Proof.
  unfold connect, newWebSocket, updateStatus.
  assert (forall s ls, completions sid (map (fun l => StatusCall l s) ls) = [])
    as Hst by (intros s ls; induction ls; simpl; done).
  destruct (isConnected w); wsimpl.
  - by rewrite completions_app, app_nil_r.
  - destruct (ctorThrows w); wsimpl;
      rewrite !completions_app, !Hst; simpl; by rewrite !app_nil_r.
Qed.

(** A timer that is not the deletion of the stream leaves the stream as
    it is. *)
Lemma runTimer_other sid t w :
  action t <> DeleteStream sid ->
  let w' := runTimer t w in
  bufferText w' sid = bufferText w sid
  /\ streamListeners w' = streamListeners w
  /\ timers w' = timers w
  /\ completions sid (trace w') = completions sid (trace w).
Proof.
  intros Hne. cbv zeta. unfold runTimer, bufferText.
  destruct (action t) as [|sid'].
  - destruct (_ && _); [|done].
    destruct (connect_stream_state sid (token w) w) as (Hl & Ht & Hc).
    by rewrite connect_streamMessages, Hl, Ht, Hc.
  - wsimpl. rewrite lookup_delete_ne by congruence. done.
Qed.

Lemma timers_other sid l : forall w,
  Forall (fun t => action t <> DeleteStream sid) l ->
  let w' := fold_left (fun w tm => runTimer tm w) l w in
  bufferText w' sid = bufferText w sid
  /\ streamListeners w' = streamListeners w
  /\ timers w' = timers w
  /\ completions sid (trace w') = completions sid (trace w).
Proof.
  induction l as [|t l IH]; intros w Hall; [done|].
  inversion Hall as [|? ? Ht Hl]; subst. cbv zeta. cbn [fold_left].
  destruct (runTimer_other sid t w Ht) as (H1 & H2 & H3 & H4).
  destruct (IH (runTimer t w) Hl) as (H1' & H2' & H3' & H4').
  by rewrite H1', H2', H3', H4', H1, H2, H3, H4.
Qed.

Lemma Forall_filter {A} (P : A -> Prop) f l :
  Forall P l -> Forall P (List.filter f l).
Proof.
  induction 1 as [|x l Hx _ IH]; simpl; [constructor|].
  destruct (f x); [by constructor|done].
Qed.

Lemma elapse_other sid dt w :
  noPendingDelete sid w ->
  let w' := elapse dt w in
  bufferText w' sid = bufferText w sid
  /\ streamListeners w' = streamListeners w
  /\ completions sid (trace w') = completions sid (trace w)
  /\ noPendingDelete sid w'.
Proof.
  intros Hno. cbv zeta. unfold elapse.
  destruct (timers_other sid (List.filter (isDue (now w + dt)) (timers w))
              (set_timers
                 (List.filter (fun tm => negb (isDue (now w + dt) tm)) (timers w))
                 (set_now (now w + dt) w)))
    as (H1 & H2 & H3 & H4); [by apply Forall_filter|].
  cbv zeta in *. unfold noPendingDelete. rewrite H1, H2, H3, H4.
  unfold bufferText. wsimpl. repeat split. by apply Forall_filter.
Qed.

Lemma chunk_timers sid m w :
  truthy sid = true -> isChunkOf sid m ->
  timers (handleMessage (Parsed m) w) = timers w.
Proof.
  intros Hsid Hm. pose proof Hm as [Hty Hid].
  unfold handleMessage. rewrite (isStreamFrame_chunk _ _ Hsid Hm).
  unfold handleStreamMessage. rewrite Hid, Hsid, Hty.
  change (str_eqb (lit "stream_message") (lit "stream_start")) with false.
  by rewrite str_eqb_refl.
Qed.

Lemma stream_in_progress sid es : forall w,
  truthy sid = true -> noPendingDelete sid w ->
  Forall (chunkOrElapse sid) es ->
  let w' := run es w in
  bufferText w' sid = bufferText w sid ++ chunkText (framesOf es)
  /\ streamListeners w' = streamListeners w
  /\ completions sid (trace w') = completions sid (trace w).
Proof.
  induction es as [|e es IH]; intros w Hsid Hno Hall.
  - unfold chunkText. simpl. by rewrite app_nil_r.
  - inversion Hall as [|? ? He Hrest]; subst. cbv zeta.
    unfold run. cbn [fold_left]. fold (run es (step w e)).
    destruct e as [|[|m]| | |dt| | | | | | |]; try done; cbn [step].
    + destruct (chunk_effect sid m w Hsid He) as (Hb & Hl & Hc).
      destruct (IH (handleMessage (Parsed m) w) Hsid) as (Hb' & Hl' & Hc');
        [unfold noPendingDelete; by rewrite (chunk_timers sid m w Hsid He)
        |done|].
      cbv zeta in *. rewrite Hb', Hl', Hc', Hb, Hl, Hc.
      unfold chunkText. simpl. by rewrite <- app_assoc.
    + destruct (elapse_other sid dt w Hno) as (Hb & Hl & Hc & Hno').
      destruct (IH (elapse dt w) Hsid Hno' Hrest) as (Hb' & Hl' & Hc').
      cbv zeta in *. by rewrite Hb', Hl', Hc', Hb, Hl, Hc.
Qed.

(** C2 (as the code has it): for a stream identifier (a non-empty
    string) without buffer and without pending deletion, [stream_message]
    frames that arrive with any delays between them, followed by one
    [stream_end] frame of that stream, make one completion notification
    per stream listener; its text is the content of the [stream_end] frame
    when that frame has a non-empty content, and otherwise the
    concatenation of the contents of the chunks in arrival order. *)
Theorem stream_reassembly sid es e w :
  truthy sid = true ->
  streamMessages w !! sid = None ->
  noPendingDelete sid w ->
  Forall (chunkOrElapse sid) es ->
  isEndOf sid e ->
  reassembled sid es e w.
Proof.
  intros Hsid Hnone Hno Hes He. unfold reassembled.
  unfold run. rewrite fold_left_app. cbn [fold_left step].
  destruct (stream_in_progress sid es w Hsid Hno Hes) as (Hb & Hl & Hc).
  unfold run in *. cbv zeta in *.
  rewrite (end_effect sid e _ Hsid He), Hb, Hl, Hc.
  unfold bufferText at 1. by rewrite Hnone.
Qed.

Lemma stream_reassembly_witness :
  completions (lit "s1")
    (trace (run [SocketMessage
                   (Parsed (frame "stream_message" (Some (lit "s1"))
                              (Some (lit "Hel"))));
                 Elapse 1000;
                 SocketMessage
                   (Parsed (frame "stream_message" (Some (lit "s1"))
                              (Some (lit "lo"))));
                 Elapse 7000;
                 SocketMessage
                   (Parsed (frame "stream_end" (Some (lit "s1")) None))]
              (initial [7%nat] []))) =
    [(7%nat, lit "Hello")].
Proof.
  apply (stream_reassembly (lit "s1")
           [SocketMessage
              (Parsed (frame "stream_message" (Some (lit "s1"))
                         (Some (lit "Hel"))));
            Elapse 1000;
            SocketMessage
              (Parsed (frame "stream_message" (Some (lit "s1"))
                         (Some (lit "lo"))));
            Elapse 7000]
           (frame "stream_end" (Some (lit "s1")) None)
           (initial [7%nat] [])).
  - reflexivity.
  - reflexivity.
  - constructor.
  - repeat constructor.
  - split; reflexivity.
Defined.

(** C2 as the spec states it fails: the stream "s1" has no buffer, but the
    deletion that an earlier stream with the same identifier left behind
    is still pending (its duplicate end frame came 1000 ms after the
    first).  The deletion fires between the chunks "Hel" and "lo", and the
    completion carries "lo". *)
Lemma stream_reassembly_pending_deletion :
  let w := run [SocketMessage
                  (Parsed (frame "stream_start" (Some (lit "s1")) None));
                SocketMessage
                  (Parsed (frame "stream_end" (Some (lit "s1")) None));
                Elapse 1000;
                SocketMessage
                  (Parsed (frame "stream_end" (Some (lit "s1")) None));
                Elapse 4000]
             (initial [7%nat] []) in
  streamMessages w !! lit "s1" = None
  /\ ~ reassembled (lit "s1")
        [SocketMessage
           (Parsed (frame "stream_message" (Some (lit "s1"))
                      (Some (lit "Hel"))));
         Elapse 1000;
         SocketMessage
           (Parsed (frame "stream_message" (Some (lit "s1"))
                      (Some (lit "lo"))))]
        (frame "stream_end" (Some (lit "s1")) None)
        w.
Proof.
  split; [reflexivity|].
  unfold reassembled. intros H. vm_compute in H. discriminate H.
Qed.

End GraceWindow.

(** ** Reconnection after an unclean close *)

Section Reconnection.
Import JsString Websocket.

Lemma reconnectDelays_app tr1 tr2 :
  reconnectDelays (tr1 ++ tr2) = reconnectDelays tr1 ++ reconnectDelays tr2.
Proof.
  induction tr1 as [|e tr1 IH]; simpl; [done|].
  destruct e; try done. destruct a; [|done]. simpl. by rewrite IH.
Qed.

Lemma reconnectDelays_map {A} (f : A -> effect) ls :
  (forall l, schedulesReconnect (f l) = false) ->
  reconnectDelays (map f ls) = [].
Proof.
  intros Hf. induction ls as [|l ls IH]; simpl; [done|].
  specialize (Hf l). destruct (f l); try done. by destruct a.
Qed.

Lemma silent_refl w : silent w w.
Proof. by split. Qed.

Lemma silent_trans w1 w2 w3 : silent w1 w2 -> silent w2 w3 -> silent w1 w3.
Proof. intros [H1 H2] [H3 H4]. split; congruence. Qed.

Ltac quiet_trace :=
  wsimpl;
  rewrite ?reconnectDelays_app, ?reconnectDelays_map by done;
  cbn [reconnectDelays]; rewrite ?app_nil_r; try done.

Lemma silent_updateStatus s w : silent w (updateStatus s w).
Proof. unfold updateStatus. split; quiet_trace. Qed.

Lemma silent_connect tok w : silent w (connect tok w).
Proof.
  unfold connect, newWebSocket, updateStatus.
  destruct (isConnected w); [split; quiet_trace|].
  wsimpl. destruct (ctorThrows w); split; quiet_trace.
Qed.

Lemma silent_handleStreamMessage m w : silent w (handleStreamMessage m w).
Proof.
  unfold handleStreamMessage, notifyStream, setTimeout.
  repeat case_match; split; quiet_trace.
Qed.

Lemma silent_handleMessage data w : silent w (handleMessage data w).
Proof.
  destruct data as [|m]; [apply silent_refl|]. unfold handleMessage.
  destruct (isStreamFrame m); [apply silent_handleStreamMessage|].
  split; quiet_trace.
Qed.

Lemma silent_runTimer t w : silent w (runTimer t w).
Proof.
  unfold runTimer. destruct (action t).
  - destruct (_ && _); [apply silent_connect|apply silent_refl].
  - split; quiet_trace.
Qed.

Lemma silent_timers l : forall w,
  silent w (fold_left (fun w tm => runTimer tm w) l w).
Proof.
  induction l as [|t l IH]; intros w; simpl; [apply silent_refl|].
  eapply silent_trans; [apply silent_runTimer|apply IH].
Qed.

Lemma silent_elapse dt w : silent w (elapse dt w).
Proof.
  unfold elapse. eapply silent_trans; [|apply silent_timers].
  split; quiet_trace.
Qed.

Lemma silent_onerror w : silent w (onerror w).
Proof.
  unfold onerror, updateStatus. wsimpl.
  destruct (reconnectAttempts w =? 0); split; quiet_trace.
Qed.

Lemma silent_stopHeartbeat w : silent w (stopHeartbeat w).
Proof. unfold stopHeartbeat. destruct (heartbeatTimer w); split; quiet_trace. Qed.

Lemma silent_socketBecomes s w : silent w (socketBecomes s w).
Proof. unfold socketBecomes. destruct (ws w); split; quiet_trace. Qed.

(** What the close handler does before it decides to reconnect. *)
Lemma silent_closing w :
  silent w (stopHeartbeat (updateStatus disconnected w)).
Proof.
  eapply silent_trans; [apply silent_updateStatus|apply silent_stopHeartbeat].
Qed.

Lemma closeHandler_clean w : silent w (closeHandler true w).
Proof. unfold closeHandler. cbn [negb andb]. apply silent_closing. Qed.

(** An unclean close below the cap schedules one reconnection, after
    [3000 * k] ms for the [k]-th attempt in a row. *)
Lemma closeHandler_unclean w :
  reconnectAttempts w < maxReconnectAttempts ->
  reconnectAttempts (closeHandler false w) = reconnectAttempts w + 1
  /\ reconnectDelays (trace (closeHandler false w)) =
       reconnectDelays (trace w)
       ++ [reconnectInterval * (reconnectAttempts w + 1)].
Proof.
  intros Hlt. unfold closeHandler. cbn [negb andb].
  destruct (silent_closing w) as [Ha Ht].
  set (w1 := stopHeartbeat (updateStatus disconnected w)) in *.
  rewrite Ha. apply N.ltb_lt in Hlt. rewrite Hlt.
  unfold scheduleReconnect, updateStatus, setTimeout. wsimpl.
  rewrite Ha. split; [done|].
  rewrite !reconnectDelays_app, reconnectDelays_map by done.
  cbn [reconnectDelays]. by rewrite app_nil_r, Ht.
Qed.

(** At the cap an unclean close schedules nothing. *)
Lemma closeHandler_capped w :
  maxReconnectAttempts <= reconnectAttempts w ->
  silent w (closeHandler false w).
Proof.
  intros Hge. unfold closeHandler. cbn [negb andb].
  destruct (silent_closing w) as [Ha Ht]. rewrite Ha.
  apply N.ltb_ge in Hge. rewrite Hge. by split.
Qed.

Lemma onclose_clean w : silent w (onclose true w).
Proof.
  unfold onclose.
  eapply silent_trans; [apply silent_socketBecomes|apply closeHandler_clean].
Qed.

Lemma onclose_unclean w :
  reconnectAttempts w < maxReconnectAttempts ->
  reconnectAttempts (onclose false w) = reconnectAttempts w + 1
  /\ reconnectDelays (trace (onclose false w)) =
       reconnectDelays (trace w)
       ++ [reconnectInterval * (reconnectAttempts w + 1)].
Proof.
  intros Hlt. unfold onclose.
  destruct (silent_socketBecomes CLOSED w) as [Ha Ht].
  rewrite <- Ha, <- Ht. apply closeHandler_unclean. by rewrite Ha.
Qed.

Lemma onclose_capped w :
  maxReconnectAttempts <= reconnectAttempts w -> silent w (onclose false w).
Proof.
  intros Hge. unfold onclose.
  eapply silent_trans; [apply silent_socketBecomes|].
  apply closeHandler_capped.
  by rewrite (proj1 (silent_socketBecomes CLOSED w)).
Qed.

Lemma silent_step e w :
  keepsCounting e = true -> isUncleanClose e = false -> silent w (step w e).
Proof.
  destruct e as [|data|wasClean| |dt|tok| | |content| | |wasClean];
    cbn [keepsCounting isUncleanClose step]; intros Hk Hu; try discriminate.
  - apply silent_handleMessage.
  - destruct wasClean; [apply onclose_clean|done].
  - apply silent_onerror.
  - apply silent_elapse.
  - apply silent_connect.
  - unfold sendMessage, socketSend.
    destruct (isConnected w); simpl; [|apply silent_refl].
    destruct (sendThrows w); split; quiet_trace.
  - unfold removeListeners. split; quiet_trace.
  - destruct wasClean; [apply closeHandler_clean|done].
Qed.

(** An unclean close, of the socket of the manager or of a stale one. *)
Lemma unclean_step e w :
  isUncleanClose e = true ->
  (reconnectAttempts w < maxReconnectAttempts ->
   reconnectAttempts (step w e) = reconnectAttempts w + 1
   /\ reconnectDelays (trace (step w e)) =
        reconnectDelays (trace w)
        ++ [reconnectInterval * (reconnectAttempts w + 1)])
  /\ (maxReconnectAttempts <= reconnectAttempts w -> silent w (step w e)).
Proof.
  destruct e as [| |[]| | | | | | | | |[]]; try discriminate; intros _;
    cbn [step]; split.
  - apply onclose_unclean.
  - apply onclose_capped.
  - apply closeHandler_unclean.
  - apply closeHandler_capped.
Qed.

(** With [a] attempts made so far, a run of events schedules one more
    attempt per unclean close until the cap is reached. *)
Lemma outage_delays es : forall w a,
  reconnectAttempts w = N.of_nat a -> (a <= 5)%nat ->
  forallb keepsCounting es = true ->
  let n := Nat.min (uncleanCloses es) (5 - a) in
  reconnectAttempts (run es w) = N.of_nat (a + n)
  /\ reconnectDelays (trace (run es w)) =
       reconnectDelays (trace w) ++ backoff (S a) n.
Proof.
  induction es as [|e es IH]; intros w a Ha Hle Hq.
  - cbv zeta. unfold uncleanCloses, backoff. simpl.
    rewrite Nat.add_0_r, app_nil_r. by split.
  - cbn [forallb] in Hq. apply andb_true_iff in Hq as [He Hq].
    unfold run. cbn [fold_left]. fold (run es (step w e)).
    destruct (isUncleanClose e) eqn:Hu.
    + destruct (unclean_step e w Hu) as [Hbelow Hcapped].
      unfold uncleanCloses. cbn [List.filter]. rewrite Hu. cbn [length].
      fold (uncleanCloses es).
      destruct (Nat.eq_dec a 5%nat) as [->|Hne].
      * destruct Hcapped as [Ha' Ht'];
          [rewrite Ha; unfold maxReconnectAttempts; lia|].
        destruct (IH (step w e) 5%nat) as [IHa IHt];
          [by rewrite Ha'|lia|done|].
        cbv zeta in *. rewrite Nat.sub_diag, Nat.min_0_r in *.
        by rewrite IHa, IHt, Ht'.
      * destruct Hbelow as [Ha' Ht'];
          [rewrite Ha; unfold maxReconnectAttempts; lia|].
        destruct (IH (step w e) (S a)) as [IHa IHt];
          [rewrite Ha', Ha; lia|lia|done|].
        cbv zeta in *.
        replace (Nat.min (S (uncleanCloses es)) (5 - a))
          with (S (Nat.min (uncleanCloses es) (5 - S a))) by lia.
        rewrite IHa, IHt, Ht', Ha. split; [f_equal; lia|].
        rewrite <- app_assoc. f_equal. unfold backoff. cbn [seq map app].
        do 2 f_equal. lia.
    + destruct (silent_step e w He Hu) as [Ha' Ht'].
      destruct (IH (step w e) a) as [IHa IHt]; [by rewrite Ha'|lia|done|].
      cbv zeta in *. unfold uncleanCloses in *. cbn [List.filter].
      rewrite Hu. by rewrite IHa, IHt, Ht'.
Qed.


(** [disconnect] cancels the pending reconnection and schedules none. *)
Lemma disconnect_quiet w :
  reconnectDelays (trace (disconnect w)) = reconnectDelays (trace w)
  /\ reconnectAttempts (disconnect w) = 0
  /\ reconnectTimer (disconnect w) = None
  /\ forall id, reconnectTimer w = Some id ->
                ~ In id (map tid (timers (disconnect w))).
Proof.
  unfold disconnect, stopReconnect, stopHeartbeat, clearTimeout, updateStatus.
  destruct (reconnectTimer w) as [id0|] eqn:Hr; wsimpl;
    destruct (heartbeatTimer w); wsimpl; destruct (ws w); wsimpl;
    (split; [quiet_trace|]); (split; [done|]); (split; [done|]);
    intros id [= <-]; rewrite in_map_iff; intros [t [Ht Hin]];
    apply filter_In in Hin as [_ Hin]; rewrite Ht, Nat.eqb_refl in Hin; done.
Qed.
































End Reconnection.

(** ** More on the manager: counters, notifications, timers *)

Section ManagerMore.
Import JsString Websocket.

Ltac quiet_trace :=
  wsimpl;
  rewrite ?reconnectDelays_app, ?reconnectDelays_map by done;
  cbn [reconnectDelays]; rewrite ?app_nil_r; try done.

Lemma openHandler_state w :
  reconnectAttempts (openHandler w) = 0
  /\ reconnectDelays (trace (openHandler w)) = reconnectDelays (trace w).
Proof.
  unfold openHandler, startHeartbeat, stopHeartbeat, updateStatus.
  wsimpl; destruct (heartbeatTimer w); wsimpl; split; quiet_trace.
Qed.

Lemma onopen_state w :
  reconnectAttempts (onopen w) = 0
  /\ reconnectDelays (trace (onopen w)) = reconnectDelays (trace w).
Proof.
  unfold onopen. destruct (openHandler_state (socketBecomes OPEN w)) as [-> ->].
  split; [done|]. apply silent_socketBecomes.
Qed.

Lemma reconnect_attempts w : reconnectAttempts (reconnect w) = 0.
Proof.
  unfold reconnect.
  destruct (disconnect_quiet (stopReconnect w)) as (_ & Ha & _).
  destruct (truthy (token (disconnect (stopReconnect w)))).
  - destruct (silent_connect (token (disconnect (stopReconnect w)))
                (disconnect (stopReconnect w))) as [H _].
    by rewrite H.
  - by wsimpl.
Qed.

Lemma step_attempts_bounded e w :
  reconnectAttempts w <= maxReconnectAttempts ->
  reconnectAttempts (step w e) <= maxReconnectAttempts.
Proof.
  intros Hle.
  destruct e as [|data|wasClean| |dt|tok| | |content| | |wasClean].
  - cbn [step]. destruct (onopen_state w) as [-> _].
    unfold maxReconnectAttempts. lia.
  - by destruct (silent_step (SocketMessage data) w eq_refl eq_refl) as [-> _].
  - cbn [step]. destruct wasClean.
    + by destruct (onclose_clean w) as [-> _].
    + destruct (N.lt_ge_cases (reconnectAttempts w) maxReconnectAttempts)
        as [Hlt|Hge].
      * destruct (onclose_unclean w Hlt) as [-> _]. lia.
      * by destruct (onclose_capped w Hge) as [-> _].
  - by destruct (silent_step SocketError w eq_refl eq_refl) as [-> _].
  - by destruct (silent_step (Elapse dt) w eq_refl eq_refl) as [-> _].
  - by destruct (silent_step (CallConnect tok) w eq_refl eq_refl) as [-> _].
  - cbn [step]. destruct (disconnect_quiet w) as (_ & -> & _).
    unfold maxReconnectAttempts. lia.
  - cbn [step]. rewrite reconnect_attempts. unfold maxReconnectAttempts. lia.
  - by destruct (silent_step (CallSendMessage content) w eq_refl eq_refl)
      as [-> _].
  - by destruct (silent_step CallRemoveListeners w eq_refl eq_refl) as [-> _].
  - cbn [step]. destruct (openHandler_state w) as [-> _].
    unfold maxReconnectAttempts. lia.
  - cbn [step]. destruct wasClean.
    + by destruct (closeHandler_clean w) as [-> _].
    + destruct (N.lt_ge_cases (reconnectAttempts w) maxReconnectAttempts)
        as [Hlt|Hge].
      * destruct (closeHandler_unclean w Hlt) as [-> _]. lia.
      * by destruct (closeHandler_capped w Hge) as [-> _].
Qed.

(** X1: whatever events arrive and whatever the caller does, the attempt
    counter never exceeds [maxReconnectAttempts] (5) once it is within
    that bound, so the test of the counter in the reconnection timer's
    callback always passes. *)
Theorem attempts_never_exceed_cap es w :
  reconnectAttempts w <= maxReconnectAttempts ->
  reconnectAttempts (run es w) <= maxReconnectAttempts
  /\ (reconnectAttempts (run es w) <=? maxReconnectAttempts) = true.
Proof.
  revert w. induction es as [|e es IH]; intros w Hle.
  - split; [done|]. by apply N.leb_le.
  - unfold run. cbn [fold_left]. apply IH. by apply step_attempts_bounded.
Qed.

Lemma attempts_never_exceed_cap_witness :
  reconnectAttempts
    (run [SocketClosed false; SocketClosed false; SocketClosed false;
          SocketClosed false; SocketClosed false; SocketClosed false;
          SocketClosed false]
       (initial [] [])) <= 5.
Proof.
  refine (proj1 (attempts_never_exceed_cap _ (initial [] []) _)).
  vm_compute. discriminate.
Defined.

(** The trace and the buffer after a [stream_start] frame. *)
Lemma start_effect sid s w :
  truthy sid = true -> isStartOf sid s ->
  exists b,
    Buf.content b = []
    /\ handleMessage (Parsed s) w =
         notifyStream sid [] false
           (set_streamMessages (<[sid := b]> (streamMessages w)) w).
Proof.
  intros Hsid [Hty Hid].
  unfold handleMessage, isStreamFrame. rewrite Hid, Hty. cbn [truthy_opt].
  rewrite Hsid, str_eqb_refl, orb_true_r. cbn [andb orb].
  unfold handleStreamMessage. rewrite Hid, Hsid, Hty, str_eqb_refl.
  cbn [negb]. eexists. split; [|reflexivity]. reflexivity.
Qed.

(** X2: a [stream_start] frame followed at once by a [stream_end] frame
    makes, for every stream listener, one call "in progress" with the
    empty text and then one completion whose text is the content of the
    end frame (the empty string if it has none), whatever buffer the
    stream had before; a deletion of the buffer is scheduled 5000 ms
    later. *)
Theorem start_then_end sid s e w :
  truthy sid = true -> isStartOf sid s -> isEndOf sid e ->
  trace (run [SocketMessage (Parsed s); SocketMessage (Parsed e)] w) =
    trace w
    ++ map (fun l => StreamCall l sid [] false) (streamListeners w)
    ++ map (fun l => StreamCall l sid (or_str (Msg.content e) []) true)
         (streamListeners w)
    ++ [SetTimeout (nextTimer w) graceWindow (DeleteStream sid)].
Proof.
  intros Hsid Hs He. pose proof He as [Hty Hid].
  unfold run. cbn [fold_left step].
  destruct (start_effect sid s w Hsid Hs) as (b & Hb & ->).
  unfold handleMessage at 1. rewrite (isStreamFrame_end _ _ Hsid He).
  unfold handleStreamMessage. rewrite Hid, Hsid, Hty.
  change (str_eqb (lit "stream_end") (lit "stream_start")) with false.
  change (str_eqb (lit "stream_end") (lit "stream_message")) with false.
  rewrite str_eqb_refl. cbn [negb].
  unfold notifyStream, setTimeout. wsimpl. rewrite lookup_insert_eq. wsimpl.
  rewrite mergeReferences_content. cbn [Buf.content]. rewrite Hb.
  rewrite <- !app_assoc. do 2 f_equal.
  by destruct (Msg.content e) as [[|c t]|].
Qed.

Lemma start_then_end_witness :
  trace (run [SocketMessage (Parsed (frame "stream_start" (Some (lit "s1")) None));
              SocketMessage
                (Parsed (frame "stream_end" (Some (lit "s1")) (Some (lit "X"))))]
           (initial [7%nat] [])) =
    [StreamCall 7 (lit "s1") [] false; StreamCall 7 (lit "s1") (lit "X") true;
     SetTimeout 1 5000 (DeleteStream (lit "s1"))].
Proof.
  apply (start_then_end (lit "s1")
           (frame "stream_start" (Some (lit "s1")) None)
           (frame "stream_end" (Some (lit "s1")) (Some (lit "X")))
           (initial [7%nat] []) eq_refl (conj eq_refl eq_refl)
           (conj eq_refl eq_refl)).
Defined.

Lemma chunk_trace sid m w :
  truthy sid = true -> isChunkOf sid m ->
  trace (handleMessage (Parsed m) w) =
    trace w
    ++ map (fun l => StreamCall l sid
                       (bufferText w sid ++ or_str (Msg.content m) []) false)
         (streamListeners w).
Proof.
  intros Hsid Hm. pose proof Hm as [Hty Hid].
  unfold handleMessage. rewrite (isStreamFrame_chunk _ _ Hsid Hm).
  unfold handleStreamMessage. rewrite Hid, Hsid, Hty.
  change (str_eqb (lit "stream_message") (lit "stream_start")) with false.
  rewrite str_eqb_refl. cbn [negb]. unfold notifyStream, bufferText. wsimpl.
  destruct (streamMessages w !! sid) as [b0|]; [|done].
  by rewrite mergeReferences_content.
Qed.

(** X3: a [stream_message] frame calls every stream listener once, not
    completed, with the whole text accumulated so far for its stream: the
    text of the buffer (empty without buffer) followed by the content of
    the frame; it starts no timer. *)
Theorem chunk_notifies_accumulated sid m w :
  truthy sid = true -> isChunkOf sid m ->
  trace (handleMessage (Parsed m) w) =
    trace w
    ++ map (fun l => StreamCall l sid
                       (bufferText w sid ++ or_str (Msg.content m) []) false)
         (streamListeners w)
  /\ bufferText (handleMessage (Parsed m) w) sid =
       bufferText w sid ++ or_str (Msg.content m) []
  /\ timers (handleMessage (Parsed m) w) = timers w.
Proof.
  intros Hsid Hm. split; [by apply chunk_trace|].
  split; [apply (chunk_effect sid m w Hsid Hm)|apply (chunk_timers sid m w Hsid Hm)].
Qed.

Lemma chunk_notifies_accumulated_witness :
  trace (handleMessage
           (Parsed (frame "stream_message" (Some (lit "s1")) (Some (lit "lo"))))
           (handleMessage
              (Parsed (frame "stream_message" (Some (lit "s1"))
                         (Some (lit "Hel"))))
              (initial [7%nat] []))) =
    [StreamCall 7 (lit "s1") (lit "Hel") false;
     StreamCall 7 (lit "s1") (lit "Hello") false].
Proof.
  exact (proj1 (chunk_notifies_accumulated (lit "s1")
                  (frame "stream_message" (Some (lit "s1")) (Some (lit "lo")))
                  (handleMessage
                     (Parsed (frame "stream_message" (Some (lit "s1"))
                                (Some (lit "Hel"))))
                     (initial [7%nat] []))
                  eq_refl (conj eq_refl eq_refl))).
Defined.

End ManagerMore.

(** ** More on the grace window *)

Section GraceWindowMore.
Import JsString Websocket.

Lemma handleMessage_now data w : now (handleMessage data w) = now w.
Proof.
  destruct data as [|m]; [done|].
  unfold handleMessage, handleStreamMessage, notifyStream, setTimeout.
  repeat case_match; by wsimpl.
Qed.

Lemma handleMessage_keeps_timer data w t :
  In t (timers w) -> In t (timers (handleMessage data w)).
Proof.
  intros Hin. destruct data as [|m]; [done|].
  unfold handleMessage, handleStreamMessage, notifyStream, setTimeout.
  repeat case_match; wsimpl; try done; by apply In_insertTimer_old.
Qed.

Lemma frames_keep_timer frames : forall w t,
  In t (timers w) ->
  In t (timers (run (map SocketMessage frames) w))
  /\ now (run (map SocketMessage frames) w) = now w.
Proof.
  induction frames as [|d frames IH]; intros w t Hin; [done|].
  unfold run. cbn [map fold_left step].
  destruct (IH (handleMessage d w) t (handleMessage_keeps_timer d w t Hin))
    as [H1 H2].
  unfold run in *. split; [done|]. by rewrite H2, handleMessage_now.
Qed.

(** A [stream_end] frame that finds a buffer settles its text and queues
    the deletion of the buffer. *)
Lemma end_with_buffer sid e w b0 :
  truthy sid = true -> isEndOf sid e ->
  streamMessages w !! sid = Some b0 ->
  let w1 := handleMessage (Parsed e) w in
  bufferText w1 sid = finalText (Buf.content b0) e
  /\ timers w1 =
       insertTimer {| tid := nextTimer w; due := now w + graceWindow;
                      action := DeleteStream sid |} (timers w)
  /\ now w1 = now w
  /\ streamListeners w1 = streamListeners w.
Proof.
  intros Hsid He Hb. pose proof He as [Hty Hid]. cbv zeta.
  unfold handleMessage. rewrite (isStreamFrame_end _ _ Hsid He).
  unfold handleStreamMessage. rewrite Hid, Hsid, Hty, Hb.
  change (str_eqb (lit "stream_end") (lit "stream_start")) with false.
  change (str_eqb (lit "stream_end") (lit "stream_message")) with false.
  rewrite str_eqb_refl. cbn [negb].
  unfold setTimeout, notifyStream, bufferText. wsimpl.
  rewrite lookup_insert_eq, mergeReferences_content. cbn [Buf.content].
  repeat split. unfold finalText, or_str.
  by destruct (Msg.content e) as [[|c t]|].
Qed.

(** X4: the deletion queued by a [stream_end] frame that found a buffer
    removes whatever is stored for the stream when it fires: frames that
    arrive in between, among them late chunks or a new start of a stream
    with the same identifier, do not keep the buffer alive. *)
Theorem deletion_wipes_late_frames sid e frames dt w :
  truthy sid = true -> isEndOf sid e ->
  is_Some (streamMessages w !! sid) ->
  graceWindow <= dt ->
  streamMessages
    (elapse dt (run (map SocketMessage frames) (handleMessage (Parsed e) w)))
    !! sid = None.
Proof.
  intros Hsid He [b0 Hb] Hdt.
  destruct (end_with_buffer sid e w b0 Hsid He Hb) as (_ & Ht & Hn & _).
  cbv zeta in *.
  destruct (frames_keep_timer frames (handleMessage (Parsed e) w)
              {| tid := nextTimer w; due := now w + graceWindow;
                 action := DeleteStream sid |}) as [Hin Hnow].
  { rewrite Ht. apply In_insertTimer. }
  eapply elapse_deletes; [exact Hin|done|]. cbn [due]. rewrite Hnow, Hn. lia.
Qed.

Lemma deletion_wipes_late_frames_witness :
  let w := handleMessage (Parsed (frame "stream_start" (Some (lit "s1")) None))
             (initial [7%nat] []) in
  streamMessages
    (elapse 5000
       (run (map SocketMessage
               [Parsed (frame "stream_start" (Some (lit "s1")) None);
                Parsed (frame "stream_message" (Some (lit "s1"))
                          (Some (lit "again")))])
          (handleMessage (Parsed (frame "stream_end" (Some (lit "s1")) None)) w)))
    !! lit "s1" = None.
Proof.
  intros w.
  apply (deletion_wipes_late_frames (lit "s1")
           (frame "stream_end" (Some (lit "s1")) None)
           [Parsed (frame "stream_start" (Some (lit "s1")) None);
            Parsed (frame "stream_message" (Some (lit "s1"))
                      (Some (lit "again")))]
           5000 w eq_refl (conj eq_refl eq_refl)).
  - vm_compute. eexists. reflexivity.
  - vm_compute. discriminate.
Defined.

Lemma Forall_filter_due (P : timer -> Prop) now' l :
  Forall (fun t => due t <= now' -> P t) l ->
  Forall P (List.filter (isDue now') l).
Proof.
  induction 1 as [|t l Ht _ IH]; simpl; [constructor|].
  unfold isDue at 1. destruct (N.leb_spec (due t) now'); [|done].
  constructor; [by apply Ht|done].
Qed.

(** Time that passes without reaching the deletion of a stream leaves the
    stream as it is. *)
Lemma elapse_not_due sid dt w :
  Forall (fun t => action t = DeleteStream sid -> now w + dt < due t)
    (timers w) ->
  let w' := elapse dt w in
  bufferText w' sid = bufferText w sid
  /\ streamListeners w' = streamListeners w
  /\ completions sid (trace w') = completions sid (trace w).
Proof.
  intros Hall. cbv zeta. unfold elapse.
  destruct (timers_other sid (List.filter (isDue (now w + dt)) (timers w))
              (set_timers
                 (List.filter (fun tm => negb (isDue (now w + dt) tm)) (timers w))
                 (set_now (now w + dt) w)))
    as (H1 & H2 & _ & H4).
  { apply Forall_filter_due. eapply List.Forall_impl; [|exact Hall].
    intros t Ht Hdue Ha. specialize (Ht Ha). lia. }
  cbv zeta in *. rewrite H1, H2, H4. unfold bufferText. by wsimpl.
Qed.

(** X5: a duplicate [stream_end] frame that arrives inside the grace
    window (less than 5000 ms after the first) is not absorbed either:
    the buffer still exists, and every stream listener is called again
    with a completion, whose text is the content of the duplicate or,
    when it has none, the text that the first end frame settled. *)
Theorem duplicate_end_within_window sid e dup dt w :
  truthy sid = true -> isEndOf sid e -> isEndOf sid dup ->
  is_Some (streamMessages w !! sid) ->
  noPendingDelete sid w ->
  dt < graceWindow ->
  let w2 := elapse dt (handleMessage (Parsed e) w) in
  is_Some (streamMessages w2 !! sid)
  /\ completions sid (trace (handleMessage (Parsed dup) w2)) =
       completions sid (trace w2)
       ++ map (fun l => (l, finalText (finalText (bufferText w sid) e) dup))
            (streamListeners w).
Proof.
  intros Hsid He Hdup [b0 Hb] Hno Hdt w2.
  destruct (end_with_buffer sid e w b0 Hsid He Hb) as (Hbt & Ht & Hn & Hl).
  cbv zeta in *.
  destruct (elapse_not_due sid dt (handleMessage (Parsed e) w))
    as (Hb2 & Hl2 & _).
  { rewrite Ht, Hn. apply Forall_insertTimer.
    - intros _. simpl. lia.
    - eapply List.Forall_impl; [|exact Hno]. intros t Hne Ha. by destruct Hne. }
  cbv zeta in *. fold w2 in Hb2, Hl2.
  assert (streamMessages (handleMessage (Parsed e) w) !! sid <> None) as Hsome.
  { unfold handleMessage. rewrite (isStreamFrame_end _ _ Hsid He).
    destruct He as [Hty Hid].
    unfold handleStreamMessage. rewrite Hid, Hsid, Hty, Hb.
    change (str_eqb (lit "stream_end") (lit "stream_start")) with false.
    change (str_eqb (lit "stream_end") (lit "stream_message")) with false.
    rewrite str_eqb_refl. cbn [negb]. unfold setTimeout, notifyStream. wsimpl.
    by rewrite lookup_insert_eq. }
  split.
  - (* the buffer survives: no deletion of the stream was due *)
    destruct (streamMessages w2 !! sid) as [b2|] eqn:E2; [by eexists|].
    exfalso.
    destruct (streamMessages (handleMessage (Parsed e) w) !! sid) as [b1|] eqn:E1;
      [|done].
    clear Hsome. unfold w2, elapse in E2.
    revert E2.
    assert (forall l w0,
              Forall (fun t => action t <> DeleteStream sid) l ->
              streamMessages (fold_left (fun w tm => runTimer tm w) l w0) !! sid
              = streamMessages w0 !! sid) as Hkeep.
    { induction l as [|t l IH]; intros w0 Hall; [done|].
      inversion Hall as [|? ? Hne Hrest]; subst. cbn [fold_left].
      rewrite IH by done. unfold runTimer.
      destruct (action t) as [|sid'] eqn:Ea.
      - destruct (_ && _); [by rewrite connect_streamMessages|done].
      - wsimpl. apply lookup_delete_ne. congruence. }
    rewrite Hkeep.
    + wsimpl. by rewrite E1.
    + apply Forall_filter_due. rewrite Ht, Hn. apply Forall_insertTimer.
      * simpl. lia.
      * eapply List.Forall_impl; [|exact Hno]. by intros t Hne _.
  - rewrite (end_effect sid dup w2 Hsid Hdup), Hb2, Hl2, Hbt, Hl.
    unfold bufferText. by rewrite Hb.
Qed.

Lemma duplicate_end_within_window_witness :
  let w := handleMessage
             (Parsed (frame "stream_message" (Some (lit "s1")) (Some (lit "Hi"))))
             (initial [7%nat] []) in
  let e := frame "stream_end" (Some (lit "s1")) None in
  let w2 := elapse 1000 (handleMessage (Parsed e) w) in
  completions (lit "s1") (trace (handleMessage (Parsed e) w2)) =
    [(7%nat, lit "Hi"); (7%nat, lit "Hi")].
Proof.
  intros w e w2.
  exact (proj2 (duplicate_end_within_window (lit "s1") e e 1000 w eq_refl
                  (conj eq_refl eq_refl) (conj eq_refl eq_refl)
                  ltac:(vm_compute; eexists; reflexivity)
                  ltac:(constructor)
                  ltac:(vm_compute; reflexivity))).
Defined.

End GraceWindowMore.

(** ** More on connecting and reconnecting *)

Section ConnectionMore.
Import JsString Websocket.




(** X7: an opened socket starts the backoff over: whatever was scheduled
    before, the unclean closes that follow an open (with nothing
    resetting the counter in between) wait 3000 * 1, 3000 * 2, ... ms
    again, at most 5 times. *)
Theorem open_restarts_backoff es w :
  forallb keepsCounting es = true ->
  reconnectDelays (trace (run es (onopen w))) =
    reconnectDelays (trace w)
    ++ backoff 1 (Nat.min (uncleanCloses es) 5).
Proof.
  intros Hq. destruct (onopen_state w) as [Ha Ht].
  destruct (outage_delays es (onopen w) 0%nat Ha ltac:(lia) Hq) as [_ Hd].
  cbv zeta in Hd. rewrite Nat.sub_0_r in Hd. by rewrite Hd, Ht.
Qed.

Lemma open_restarts_backoff_witness :
  reconnectDelays
    (trace (run [SocketClosed false; Elapse 3000; SocketError;
                 SocketClosed false]
              (onopen
                 (run [SocketClosed false; Elapse 3000; SocketError;
                       SocketClosed false; Elapse 6000]
                    (onopen (connect (lit "token") (initial [] []))))))) =
    [3000; 6000; 3000; 6000].
Proof.
  exact (open_restarts_backoff
           [SocketClosed false; Elapse 3000; SocketError; SocketClosed false]
           (run [SocketClosed false; Elapse 3000; SocketError;
                 SocketClosed false; Elapse 6000]
              (onopen (connect (lit "token") (initial [] []))))
           eq_refl).
Defined.





End ConnectionMore.

(** ** A manager without listeners *)

Section Muted.
Import JsString Websocket.























End Muted.

(** ** More on the reference extractor *)

Section ReferenceExtractorMore.
Import JsString Regex ChatInterface.

(** X11: whatever the text, [extractReferences] and [parseReferences]
    return an empty list of references: the pattern is applied to single
    lines and needs a line feed, so no line ever matches. *)
Theorem references_always_empty content :
  extractReferences content = []
  /\ references (parseReferences content) = [].
Proof.
  split.
  - unfold extractReferences. rewrite extractLoop_refs; [done|].
    intros line. apply refRegex_line.
  - unfold parseReferences, parseLoop. cbn [references].
    rewrite parseLoop_refs; [done|]. intros line. apply refRegex_line.
Qed.

Lemma parseStep_inRef st line :
  inReferenceSection st = true ->
  inReferenceSection (parseStep st line) = true
  /\ textLines (parseStep st line) = textLines st.
Proof.
  intros Hin. unfold parseStep. rewrite Hin.
  destruct (includes line marker); [done|].
  by destruct (exec refRegex line).
Qed.

Lemma parseLoop_inRef lines : forall st,
  inReferenceSection st = true ->
  textLines (fold_left parseStep lines st) = textLines st.
Proof.
  induction lines as [|l lines IH]; intros st Hin; [done|].
  cbn [fold_left]. destruct (parseStep_inRef st l Hin) as [H1 H2].
  by rewrite IH, H2.
Qed.

(** The visible lines are those before the first line with the marker. *)
Lemma parseLoop_text lines : forall st,
  inReferenceSection st = false ->
  textLines (fold_left parseStep lines st) = textLines st ++ beforeMarker lines.
Proof.
  induction lines as [|l lines IH]; intros st Hin; cbn [fold_left beforeMarker].
  - by rewrite app_nil_r.
  - unfold parseStep at 2. destruct (includes l marker) eqn:E.
    + rewrite parseLoop_inRef by done. cbn [textLines]. by rewrite app_nil_r.
    + rewrite Hin, IH by done. cbn [textLines]. by rewrite <- app_assoc.
Qed.

Lemma parseReferences_text content :
  text (parseReferences content) = join [LF] (beforeMarker (split LF content)).
Proof.
  unfold parseReferences, parseLoop. cbn [text].
  by rewrite parseLoop_text.
Qed.

Lemma beforeMarker_prefix lines :
  exists rest, lines = beforeMarker lines ++ rest.
Proof.
  induction lines as [|l lines [rest IH]]; cbn [beforeMarker]; [by exists []|].
  destruct (includes l marker); [by exists (l :: lines)|].
  exists rest. simpl. by rewrite <- IH.
Qed.

Lemma beforeMarker_clean lines l :
  In l (beforeMarker lines) -> In l lines /\ includes l marker = false.
Proof.
  induction lines as [|l0 lines IH]; cbn [beforeMarker]; [done|].
  destruct (includes l0 marker) eqn:E; [done|].
  intros [<-|Hin]; [split; [by left|done]|].
  destruct (IH Hin). split; [by right|done].
Qed.

Lemma join_app_prefix sep a b :
  exists rest, join sep (a ++ b) = join sep a ++ rest.
Proof.
  induction a as [|l a [rest IH]]; [by exists (join sep b)|].
  destruct a as [|l2 a].
  - destruct b as [|l2 b]; [exists []; simpl; by rewrite app_nil_r|].
    exists (sep ++ join sep (l2 :: b)). reflexivity.
  - exists rest. change (join sep ((l :: l2 :: a) ++ b))
      with (l ++ sep ++ join sep ((l2 :: a) ++ b)).
    rewrite IH. change (join sep (l :: l2 :: a))
      with (l ++ sep ++ join sep (l2 :: a)).
    by rewrite <- !app_assoc.
Qed.

(** X12: the visible text that [parseReferences] returns is a prefix of
    its input: the parser only cuts, from the first line that includes
    the marker on. *)
Theorem visible_text_is_prefix content :
  exists rest, content = text (parseReferences content) ++ rest.
Proof.
  rewrite parseReferences_text.
  destruct (beforeMarker_prefix (split LF content)) as [rest Hrest].
  destruct (join_app_prefix [LF] (beforeMarker (split LF content)) rest)
    as [tail Htail].
  exists tail. rewrite <- Htail, <- Hrest. by rewrite join_split.
Qed.

Lemma split_clean sep l : ~ In sep l -> split sep l = [l].
Proof.
  induction l as [|c l IH]; intros Hno; [done|]. simpl.
  destruct (N.eqb_spec c sep) as [->|Hne]; [destruct Hno; by left|].
  rewrite IH; [done|]. intros Hin. apply Hno. by right.
Qed.

(** Splitting a join of separator-free pieces gives the pieces back. *)
Lemma split_join sep ls :
  ls <> [] -> Forall (fun l => ~ In sep l) ls ->
  split sep (join [sep] ls) = ls.
Proof.
  induction ls as [|l ls IH]; intros Hne Hall; [done|].
  inversion Hall as [|? ? Hl Hrest]; subst.
  destruct ls as [|l2 ls]; [by apply split_clean|].
  change (join [sep] (l :: l2 :: ls)) with (l ++ sep :: join [sep] (l2 :: ls)).
  rewrite split_app_sep, split_clean, IH by done. done.
Qed.

Lemma includes_tail c s p : includes s p = true -> includes (c :: s) p = true.
Proof. intros H. cbn [includes]. rewrite H. apply orb_true_r. Qed.

Lemma startsWith_first_piece sep p : forall s,
  ~ In sep p -> startsWith s p = true ->
  exists l ls, split sep s = l :: ls /\ startsWith l p = true.
Proof.
  induction p as [|a p IH]; intros s Hno Hs.
  - destruct (split sep s) as [|l ls] eqn:E; [by apply split_nonempty in E|].
    by exists l, ls.
  - destruct s as [|b s]; [done|]. cbn [startsWith] in Hs.
    apply andb_true_iff in Hs as [Hab Hs]. apply N.eqb_eq in Hab. subst b.
    destruct (IH s) as (l & ls & Hsp & Hl); [intros H; apply Hno; by right|done|].
    cbn [split]. destruct (N.eqb_spec a sep) as [->|Hne];
      [destruct Hno; by left|].
    rewrite Hsp. exists (a :: l), ls. split; [done|].
    cbn [startsWith]. by rewrite N.eqb_refl.
Qed.

(** A pattern without separator that occurs in a string occurs in one of
    the pieces of its split. *)
Lemma includes_in_piece sep p s :
  ~ In sep p -> includes s p = true ->
  exists l, In l (split sep s) /\ includes l p = true.
Proof.
  intros Hno. induction s as [|c s IH]; intros Hs.
  - exists []. split; [by left|done].
  - cbn [includes] in Hs. apply orb_true_iff in Hs as [Hs|Hs].
    + destruct (startsWith_first_piece sep p (c :: s) Hno Hs)
        as (l & ls & Hsp & Hl).
      exists l. rewrite Hsp. split; [by left|].
      destruct l; cbn [includes]; by rewrite Hl.
    + destruct (IH Hs) as (l & Hin & Hl). cbn [split].
      destruct (N.eqb c sep); [exists l; split; [by right|done]|].
      destruct (split sep s) as [|l0 ls] eqn:E; [done|].
      destruct Hin as [<-|Hin].
      * exists (c :: l0). split; [by left|by apply includes_tail].
      * exists l. split; [by right|done].
Qed.

Lemma visible_text_clean content :
  checkHasReferences (text (parseReferences content)) = false.
Proof.
  unfold checkHasReferences. rewrite parseReferences_text.
  destruct (beforeMarker (split LF content)) as [|l0 ls0] eqn:E; [done|].
  destruct (includes _ marker) eqn:Hinc; [|done]. exfalso.
  apply (includes_in_piece LF) in Hinc as (l & Hin & Hl).
  - rewrite split_join in Hin.
    + rewrite <- E in Hin. apply beforeMarker_clean in Hin as [_ Hc]. congruence.
    + done.
    + apply List.Forall_forall. intros x Hx. rewrite <- E in Hx.
      apply beforeMarker_clean in Hx as [Hx _]. by apply split_no_sep in Hx.
  - vm_compute. intros H. repeat (destruct H as [H|H]; [discriminate H|]). done.
Qed.

(** X13: the visible text that [parseReferences] returns never contains
    the marker, so parsing it again returns it unchanged. *)
Theorem visible_text_is_final content :
  checkHasReferences (text (parseReferences content)) = false
  /\ parseReferences (text (parseReferences content)) =
       {| text := text (parseReferences content); references := [] |}.
Proof.
  split; [apply visible_text_clean|].
  apply parseReferences_marker_free, visible_text_clean.
Qed.

(** X14: [formatMessageContent] puts "<br>" between the lines of the
    content, and its result contains no line feed. *)
Theorem formatMessageContent_lines content :
  formatMessageContent content = join (lit "<br>") (split LF content)
  /\ ~ In LF (formatMessageContent content).
Proof.
  unfold formatMessageContent. induction content as [|c s [IH1 IH2]].
  - split; [done|intros []].
  - cbn [flat_map split]. destruct (N.eqb_spec c LF) as [->|Hne].
    + split.
      * destruct (split LF s) eqn:E; [by apply split_nonempty in E|].
        rewrite IH1. reflexivity.
      * intros Hin. apply in_app_or in Hin as [Hin|Hin]; [|done].
        vm_compute in Hin.
        repeat (destruct Hin as [Hin|Hin]; [discriminate Hin|]). done.
    + split.
      * destruct (split LF s) as [|l ls] eqn:E; [by apply split_nonempty in E|].
        rewrite join_cons_head. simpl. by rewrite IH1.
      * intros [Hin|Hin]; [congruence|done].
Qed.

End ReferenceExtractorMore.

(** ** From the frames of a stream to the message store *)

Section StreamToStore.
Import JsString Websocket ChatStore ChatInterface.








End StreamToStore.

(** ** More on the message store *)

Section MessageStoreMore.
Import ChatStore.

Lemma partial_updates_keep_slot a streamId refs updates : forall st c,
  streamingMessage st =
    Some (ChatMessage.mk (freshId a) ai c (date a) (Some false) refs
            (Some true) (Some streamId) None) ->
  exists c',
    streamingMessage (fold_left apply (map partialUpdate updates) st) =
      Some (ChatMessage.mk (freshId a) ai c' (date a) (Some false) refs
              (Some true) (Some streamId) None)
    /\ messages (fold_left apply (map partialUpdate updates) st) = messages st.
Proof.
  induction updates as [|[[[c1 id1] r1] a1] updates IH]; intros st c Hslot.
  - by exists c.
  - cbn [map fold_left partialUpdate apply].
    destruct (IH (addOrUpdateStreamingMessage c1 false id1 r1 a1 st) c1)
      as (c' & Hs & Hm).
    { unfold addOrUpdateStreamingMessage. by rewrite Hslot. }
    exists c'. split; [done|]. rewrite Hm.
    unfold addOrUpdateStreamingMessage. by rewrite Hslot.
Qed.

(** X16: a stream of any length ends as one message: from an empty
    streaming slot, one call with [isComplete = false], any number of
    further such calls and one call with [isComplete = true] append
    exactly one message to the list, created by the first call (its
    identifier, time and stream identifier) with the text and the
    references of the last, and leave the slot empty. *)
Theorem streaming_any_length st c1 id1 r1 a1 updates cn idn rn an :
  streamingMessage st = None ->
  let st' :=
    addOrUpdateStreamingMessage cn true idn rn an
      (fold_left apply (map partialUpdate updates)
         (addOrUpdateStreamingMessage c1 false id1 r1 a1 st)) in
  messages st' = messages st ++ [finalized a1 id1 cn rn]
  /\ streamingMessage st' = None.
Proof.
  intros Hslot. cbv zeta.
  destruct (partial_updates_keep_slot a1 id1 (Some (default [] r1)) updates
              (addOrUpdateStreamingMessage c1 false id1 r1 a1 st) c1)
    as (c' & Hs & Hm).
  { unfold addOrUpdateStreamingMessage. by rewrite Hslot. }
  unfold addOrUpdateStreamingMessage at 1 3. rewrite Hs.
  cbn [messages streamingMessage]. rewrite Hm.
  unfold addOrUpdateStreamingMessage. by rewrite Hslot.
Qed.

Lemma streaming_any_length_witness :
  let amb := {| freshId := lit "id"; date := 1 |} in
  messages
    (addOrUpdateStreamingMessage (lit "Hello") true (lit "s1") None amb
       (fold_left apply
          (map partialUpdate
             [(lit "H", lit "s1", None, amb); (lit "He", lit "s1", None, amb);
              (lit "Hel", lit "s1", None, amb); (lit "Hell", lit "s1", None, amb)])
          (addOrUpdateStreamingMessage [] false (lit "s1") None amb empty))) =
    [finalized amb (lit "s1") (lit "Hello") None].
Proof.
  intros amb.
  exact (proj1 (streaming_any_length empty [] (lit "s1") None amb
                  [(lit "H", lit "s1", None, amb); (lit "He", lit "s1", None, amb);
                   (lit "Hel", lit "s1", None, amb);
                   (lit "Hell", lit "s1", None, amb)]
                  (lit "Hello") (lit "s1") None amb eq_refl)).
Defined.

Lemma apply_appends st o :
  isClear o = false ->
  exists added,
    messages (apply st o) = messages st ++ added /\ (length added <= 1)%nat.
Proof.
  intros Hc. destruct o as [m|c b id r a|]; [| |done]; cbn [apply].
  - exists [m]. split; [done|simpl; lia].
  - unfold addOrUpdateStreamingMessage.
    destruct (streamingMessage st) as [sm|]; destruct b; cbn [messages negb];
      try (exists []; split; [by rewrite app_nil_r|simpl; lia]).
    eexists [_]. split; [done|simpl; lia].
Qed.

(** X17: the message list is append-only: as long as [clearMessages] is
    not called, the operations of the store never remove or change a
    message of the list; they append at most one message each. *)
Theorem messages_append_only ops st :
  forallb (fun o => negb (isClear o)) ops = true ->
  exists added,
    messages (fold_left apply ops st) = messages st ++ added
    /\ (length added <= length ops)%nat.
Proof.
  revert st. induction ops as [|o ops IH]; intros st Hall.
  - exists []. split; [by rewrite app_nil_r|simpl; lia].
  - cbn [forallb] in Hall. apply andb_true_iff in Hall as [Ho Hall].
    apply negb_true_iff in Ho.
    destruct (apply_appends st o Ho) as (a1 & H1 & L1).
    destruct (IH (apply st o) Hall) as (a2 & H2 & L2).
    exists (a1 ++ a2). cbn [fold_left length].
    rewrite H2, H1, <- app_assoc, length_app. split; [done|lia].
Qed.

Lemma messages_append_only_witness :
  let amb := {| freshId := lit "id"; date := 1 |} in
  exists added,
    messages
      (fold_left apply
         [AddOrUpdateStreamingMessage (lit "H") false (lit "s1") None amb;
          AddMessage (finalized amb (lit "u") (lit "question") None);
          AddOrUpdateStreamingMessage (lit "Hi") true (lit "s1") None amb]
         empty) = messages empty ++ added
    /\ (length added <= 3)%nat.
Proof.
  intros amb.
  exact (messages_append_only
           [AddOrUpdateStreamingMessage (lit "H") false (lit "s1") None amb;
            AddMessage (finalized amb (lit "u") (lit "question") None);
            AddOrUpdateStreamingMessage (lit "Hi") true (lit "s1") None amb]
           empty eq_refl).
Defined.

End MessageStoreMore.

(** ** The authentication store *)

Section AuthStoreFacts.
Import JsString AuthStore.

(** A split has one piece more than the string has separators. *)
Lemma split_length sep s : length (split sep s) = S (occurrences sep s).
Proof.
  induction s as [|c s IH]; [done|]. cbn [split occurrences].
  destruct (N.eqb c sep); cbn [length]; [by rewrite IH|].
  destruct (split sep s) as [|l ls] eqn:E; [by apply split_nonempty in E|].
  exact IH.
Qed.

(** X18: [isTokenValid] accepts exactly the tokens with two dots: it
    does not look at the parts (a token of only two dots passes); a
    token it accepts is non-empty, so the store is authenticated. *)
Theorem token_valid_iff_two_dots st :
  (isTokenValid st = true <->
   exists t, token st = Some t /\ occurrences DOT t = 2%nat)
  /\ (isTokenValid st = true -> isAuthenticated st = true)
  /\ isTokenValid (login [DOT; DOT] [] st) = true.
Proof.
  unfold isTokenValid, isAuthenticated. split; [|split; [|done]].
  - destruct (token st) as [t|]; [|split; [done|by intros (t & [=] & _)]].
    destruct (truthy t) eqn:Ht; cbn [negb].
    + rewrite Nat.eqb_eq, split_length. split.
      * intros [= H]. by exists t.
      * intros (t' & [= <-] & H). by rewrite H.
    + split; [done|]. intros (t' & [= <-] & H). by destruct t.
  - destruct (token st) as [t|]; [|done]. by destruct (truthy t).
Qed.

End AuthStoreFacts.

(** ** The session list *)

Section SessionsStoreFacts.
Import JsString SessionsStore.

Lemma hasId_true id s : hasId id s = true <-> Session.session_id s = id.
Proof. unfold hasId. apply bool_decide_eq_true. Qed.

Lemma hasId_false id s : hasId id s = false <-> Session.session_id s <> id.
Proof. unfold hasId. apply bool_decide_eq_false. Qed.

Lemma updateFirst_at id f pre s post :
  Forall (fun x => Session.session_id x <> id) pre ->
  Session.session_id s = id ->
  updateFirst id f (pre ++ s :: post) = pre ++ f s :: post.
Proof.
  intros Hpre Hs. induction Hpre as [|x pre Hx _ IH]; cbn [app updateFirst].
  - apply hasId_true in Hs. by rewrite Hs.
  - apply hasId_false in Hx. by rewrite Hx, IH.
Qed.

Lemma updateFirst_absent id f l :
  ~ In id (map Session.session_id l) -> updateFirst id f l = l.
Proof.
  induction l as [|x l IH]; intros Hno; [done|]. cbn [updateFirst].
  destruct (hasId id x) eqn:E.
  - apply hasId_true in E. destruct Hno. by left.
  - rewrite IH; [done|]. intros Hin. apply Hno. by right.
Qed.

Lemma updateFirst_ids id f l :
  (forall s, Session.session_id (f s) = Session.session_id s) ->
  map Session.session_id (updateFirst id f l) = map Session.session_id l.
Proof.
  intros Hf. induction l as [|x l IH]; [done|]. cbn [updateFirst].
  destruct (hasId id x); cbn [map]; [by rewrite Hf|by rewrite IH].
Qed.

Lemma add_one_safe n :
  (Z.abs n < 2 ^ 53)%Z -> JsNumber.add n 1 = (n + 1)%Z.
Proof.
  intros Hn. unfold JsNumber.add, JsNumber.roundToDouble. cbv zeta.
  destruct (Z.ltb_spec (Z.abs (n + 1)) (2 ^ 53)) as [Hlt|Hge]; [done|].
  assert (n + 1 = 2 ^ 53)%Z as -> by lia. reflexivity.
Qed.

(** X19: [updateSessionLastMessage] changes the first session with the
    identifier and no other: its last message becomes the message, cut to
    its first 50 code units followed by "..." when it is longer than 50
    (so at most 53 code units, and the message itself when it has at most
    50), and its message count grows by one as long as its magnitude is
    below 2^53; a count of 2^53 stays as it is, the sum being rounded to
    the nearest double.  When no session has the identifier the store is
    unchanged. *)
Theorem last_message_preview id message st :
  (forall pre s post,
     sessions st = pre ++ s :: post ->
     Forall (fun x => Session.session_id x <> id) pre ->
     Session.session_id s = id ->
     sessions (updateSessionLastMessage id message st) =
       pre
       ++ Session.mk id (Session.start_time s) (Session.end_time s)
            (JsNumber.add (Session.message_count s) 1)
            (Some (preview message)) (Session.status s)
       :: post
     /\ ((Z.abs (Session.message_count s) < 2 ^ 53)%Z ->
         JsNumber.add (Session.message_count s) 1 =
           (Session.message_count s + 1)%Z)
     /\ (Session.message_count s = (2 ^ 53)%Z ->
         JsNumber.add (Session.message_count s) 1 = (2 ^ 53)%Z))
  /\ (~ In id (ids st) -> updateSessionLastMessage id message st = st)
  /\ (length (preview message) <= 53)%nat
  /\ take 50 (preview message) = take 50 message
  /\ ((length message <= 50)%nat -> preview message = message).
Proof.
  split; [|split; [|split; [|split]]].
  - intros pre s post Hs Hpre Hid. unfold updateSessionLastMessage.
    cbn [sessions set_sessions].
    rewrite Hs, (updateFirst_at id _ pre s post) by done.
    rewrite Hid. split; [done|]. split; [apply add_one_safe|].
    by intros ->.
  - intros Hno. unfold updateSessionLastMessage.
    rewrite updateFirst_absent by done. by destruct st.
  - unfold preview. destruct (Nat.ltb_spec 50 (length message)).
    + rewrite length_app, length_take.
      change (length (lit "...")) with 3%nat. lia.
    + lia.
  - unfold preview. destruct (Nat.ltb_spec 50 (length message)); [|done].
    rewrite take_app_le by (rewrite length_take; lia).
    apply take_take_eq || (rewrite take_take; f_equal; lia).
  - intros Hle. unfold preview.
    destruct (Nat.ltb_spec 50 (length message)); [lia|done].
Qed.

Lemma last_message_preview_witness :
  let s1 := Session.mk (lit "a") [] [] 0 None active in
  let s2 := Session.mk (lit "b") [] [] 2 None active in
  let st := mkStore [s1; s2] (Some (lit "a")) false false true 1 in
  sessions (updateSessionLastMessage (lit "b") (lit "hello") st) =
    [s1; Session.mk (lit "b") [] [] 3 (Some (lit "hello")) active].
Proof.
  intros s1 s2 st.
  destruct (proj1 (last_message_preview (lit "b") (lit "hello") st)
              [s1] s2 [] eq_refl) as (H & Hsafe & _).
  - constructor; [|constructor]. vm_compute. discriminate.
  - reflexivity.
  - rewrite H, Hsafe; [reflexivity|]. reflexivity.
Defined.

Lemma removeFirst_absent id l :
  ~ In id (map Session.session_id l) -> removeFirst id l = None.
Proof.
  induction l as [|x l IH]; intros Hno; [done|]. cbn [removeFirst].
  destruct (hasId id x) eqn:E.
  - apply hasId_true in E. destruct Hno. by left.
  - rewrite IH; [done|]. intros Hin. apply Hno. by right.
Qed.

Lemma removeFirst_present id l :
  In id (map Session.session_id l) ->
  exists pre s post,
    l = pre ++ s :: post /\ removeFirst id l = Some (pre ++ post)
    /\ Session.session_id s = id
    /\ Forall (fun x => Session.session_id x <> id) pre.
Proof.
  induction l as [|x l IH]; intros Hin; [destruct Hin|].
  cbn [removeFirst]. destruct (hasId id x) eqn:E.
  - apply hasId_true in E. by exists [], x, l.
  - apply hasId_false in E. destruct Hin as [Hx|Hin]; [done|].
    destruct (IH Hin) as (pre & s & post & -> & -> & Hs & Hpre).
    exists (x :: pre), s, post. repeat split; try done. by constructor.
Qed.

(** X20: [deleteSession] removes the first session with the identifier;
    when the identifiers of the list are distinct, the identifier is gone
    afterwards, the other sessions keep their order, and the pointer to
    the current session never stays on the deleted session: it moves to
    the first remaining session (or becomes empty) when it was there, and
    is unchanged otherwise.  An unknown identifier changes nothing. *)
Theorem delete_session id st :
  (~ In id (ids st) -> deleteSession id st = st)
  /\ (In id (ids st) -> List.NoDup (ids st) ->
      let st' := deleteSession id st in
      ~ In id (ids st')
      /\ (exists pre s post,
            sessions st = pre ++ s :: post /\ sessions st' = pre ++ post
            /\ Session.session_id s = id)
      /\ currentSessionId st' <> Some id
      /\ (currentSessionId st <> Some id ->
          currentSessionId st' = currentSessionId st)
      /\ (currentSessionId st = Some id ->
          currentSessionId st' = head (ids st'))).
Proof.
  unfold ids. split.
  - intros Hno. unfold deleteSession. by rewrite removeFirst_absent.
  - intros Hin Hnd. cbv zeta.
    destruct (removeFirst_present id (sessions st) Hin)
      as (pre & s & post & Hl & Hr & Hs & Hpre).
    assert (~ In id (map Session.session_id (pre ++ post))) as Hgone.
    { rewrite Hl, map_app in Hnd. cbn [map] in Hnd.
      apply NoDup_remove_2 in Hnd. by rewrite Hs, <- map_app in Hnd. }
    unfold deleteSession. rewrite Hr. cbn [currentSessionId set_sessions].
    case_bool_decide as Hcur.
    + cbn [sessions set_currentSessionId currentSessionId].
      repeat split; try done.
      * by exists pre, s, post.
      * destruct (pre ++ post) as [|x rest] eqn:E; [done|].
        intros [= Hx]. apply Hgone. left. done.
      * intros _. by destruct (pre ++ post).
    + cbn [sessions set_sessions currentSessionId].
      repeat split; try done. by exists pre, s, post.
Qed.

Lemma delete_session_witness :
  let s1 := Session.mk (lit "a") [] [] 0 None active in
  let s2 := Session.mk (lit "b") [] [] 0 None active in
  let st := mkStore [s1; s2] (Some (lit "a")) false false true 1 in
  currentSessionId (deleteSession (lit "a") st) = Some (lit "b").
Proof.
  intros s1 s2 st.
  destruct (proj2 (delete_session (lit "a") st)) as (_ & _ & _ & _ & H).
  - by left.
  - repeat constructor; vm_compute; intros H;
      repeat (destruct H as [H|H]; [discriminate H|]); done.
  - by rewrite H.
Defined.

Lemma removeFirst_found id l : forall rest,
  removeFirst id l = Some rest ->
  exists pre s post,
    l = pre ++ s :: post /\ rest = pre ++ post /\ Session.session_id s = id.
Proof.
  induction l as [|x l IH]; intros rest Hr; [done|].
  cbn [removeFirst] in Hr. destruct (hasId id x) eqn:E.
  - injection Hr as <-. apply hasId_true in E. by exists [], x, l.
  - destruct (removeFirst id l) as [rest'|]; [|done]. injection Hr as <-.
    destruct (IH rest' eq_refl) as (pre & s & post & -> & -> & Hs).
    by exists (x :: pre), s, post.
Qed.

Lemma apply_keeps_current st o :
  currentValid st -> keepsListed st o -> currentValid (apply st o).
Proof.
  intros Hcur Hsel. unfold currentValid, ids in *.
  destruct o as [id|id iso|id msg|id name|id|tok title resp amb|
                 |tok page|page resp|tok];
    cbn [apply].
  - unfold selectSession. cbn [currentSessionId sessions set_sessions
      set_currentSessionId]. by rewrite updateFirst_ids.
  - unfold endSession.
    cbn [currentSessionId sessions set_sessions]. by rewrite updateFirst_ids.
  - unfold updateSessionLastMessage.
    cbn [currentSessionId sessions set_sessions]. by rewrite updateFirst_ids.
  - unfold renameSession.
    cbn [currentSessionId sessions set_sessions]. by rewrite updateFirst_ids.
  - unfold deleteSession.
    destruct (removeFirst id (sessions st)) as [rest|] eqn:Hr; [|done].
    cbn [currentSessionId set_sessions]. case_bool_decide as Hc.
    + cbn [currentSessionId set_currentSessionId sessions].
      destruct rest; [done|by left].
    + cbn [currentSessionId sessions set_sessions].
      destruct (currentSessionId st) as [c|]; [|done].
      destruct (removeFirst_found id (sessions st) rest Hr)
        as (pre & s & post & Hl & -> & Hs).
      rewrite Hl, map_app in Hcur. cbn [map] in Hcur. rewrite map_app.
      apply in_app_or in Hcur as [H|[H|H]]; apply in_or_app;
        [by left| |by right]. congruence.
  - unfold createSession. destruct tok as [t|]; [|done].
    destruct (truthy t); cbn [negb]; [|done].
    cbn [currentSessionId set_currentSessionId sessions set_sessions map].
    by left.
  - done.
  - unfold fetchSessionsStart. destruct tok as [t|]; [|done].
    destruct (negb (truthy t)); [done|]. by destruct (Z.eqb page 1).
  - unfold fetchSessionsSettled. destruct resp as [data|]; [|done].
    cbn [currentSessionId sessions]. cbn [keepsListed] in Hsel.
    destruct (currentSessionId st) as [c|]; [|done].
    destruct (Z.eqb_spec page 1) as [->|Hne].
    + by apply Hsel.
    + rewrite map_app. apply in_or_app. by left.
  - unfold loadMoreSessionsStart, fetchSessionsStart.
    destruct (_ || _); [done|]. destruct tok as [t|]; [|done].
    destruct (negb (truthy t)); [done|]. by destruct (Z.eqb _ 1).
Qed.

(** X21: the pointer to the current session stays on the list through
    the operations of the store, as long as the sessions selected are
    listed and every first page that is fetched lists the current
    session.  A first page that does not list it leaves the pointer
    dangling: [fetchSessions] replaces the list and does not touch
    [currentSessionId]. *)
Theorem current_session_listed :
  (forall ops st,
     currentValid st -> allKeepListed st ops ->
     currentValid (fold_left apply ops st))
  /\ (forall st id data,
        currentSessionId st = Some id ->
        ~ In id (fetchedIds data) ->
        ~ currentValid (fetchSessionsSettled 1 (Some data) st)).
Proof.
  split.
  - induction ops as [|o ops IH]; intros st Hcur Hall; [done|].
    destruct Hall as [Ho Hall]. cbn [fold_left].
    apply IH; [by apply apply_keeps_current|done].
  - intros st id data Hid Hno. unfold currentValid, fetchSessionsSettled, ids.
    cbn [currentSessionId sessions Z.eqb Pos.eqb]. by rewrite Hid.
Qed.

Lemma current_session_listed_witness :
  let amb := {| iso1 := lit "t1"; iso2 := lit "t2"; tempId := lit "tmp" |} in
  let srv := Session.mk (lit "srv") [] [] 0 None active in
  let page := {| f_sessions := Some [srv]; f_has_more := None |} in
  currentValid
    (fold_left apply
       [FetchSessionsStart (Some (lit "tok")) 1;
        FetchSessionsSettled 1 (Some page);
        SelectSession (lit "srv");
        CreateSession (Some (lit "tok")) None None amb;
        DeleteSession (lit "tmp")]
       initial)
  /\ ~ currentValid
        (fold_left apply
           [CreateSession (Some (lit "tok")) None None amb;
            FetchSessionsSettled 1 (Some page)]
           initial).
Proof.
  intros amb srv page. split.
  - apply (proj1 current_session_listed); [exact I|].
    cbn [allKeepListed keepsListed]. repeat split; try done.
    vm_compute. by left.
  - apply (proj2 current_session_listed
             (apply initial (CreateSession (Some (lit "tok")) None None amb))
             (lit "tmp") page eq_refl).
    vm_compute. intros [H|[]]. discriminate H.
Defined.

End SessionsStoreFacts.

(** ** The component: frames of the socket, sending, logging out *)

Section ChatPageFacts.
Import JsString Websocket ChatStore ChatInterface ChatPage.

Lemma addMessage_store content type timestamp hasRefs refs out p :
  ChatPage.chatStore (ChatPage.addMessage content type timestamp hasRefs refs out p)
  = ChatStore.addMessage
      (shown content type
         (match timestamp with
          | Some t => if truthy t then parseDate out t else date (stamp out)
          | None => date (stamp out)
          end) hasRefs refs out)
      (ChatPage.chatStore p).
Proof. reflexivity. Qed.

Lemma addMessage_flags content type timestamp hasRefs refs out p :
  isSending (ChatPage.addMessage content type timestamp hasRefs refs out p)
  = isSending p
  /\ ChatPage.isTyping
       (ChatPage.addMessage content type timestamp hasRefs refs out p)
     = ChatPage.isTyping p
  /\ inputMessage
       (ChatPage.addMessage content type timestamp hasRefs refs out p)
     = inputMessage p.
Proof. done. Qed.

(** X22: a frame handed to the component by the manager's message
    listeners appends at most one message to the store; the message is
    from the assistant, not streaming and without references (the list
    that [parseReferences] returns is always empty); the streaming slot is
    left alone, and the typing and sending flags are reset whatever the
    type of the frame. *)
Theorem socket_message_effect m out p :
  let p' := handleWebSocketMessage m out p in
  ChatPage.isTyping p' = false
  /\ isSending p' = false
  /\ streamingMessage (ChatPage.chatStore p') =
       streamingMessage (ChatPage.chatStore p)
  /\ exists added,
       messages (ChatPage.chatStore p') =
         messages (ChatPage.chatStore p) ++ added
       /\ (length added <= 1)%nat
       /\ Forall plainReply added.
Proof.
  cbv zeta. unfold handleWebSocketMessage.
  split; [done|]. split; [done|].
  destruct (str_eqb (Msg.type m) (lit "connected")).
  { split.
    - destruct (negb _); [|done].
      by destruct (SessionsStore.sessions (sessionsStore p));
        [unfold startCreateSession;
         destruct (AuthStore.isAuthenticated (authStore p))|].
    - eexists [_]. split; [|split; [simpl; lia|]].
      + destruct (negb _); [|reflexivity].
        by destruct (SessionsStore.sessions (sessionsStore p));
          [unfold startCreateSession;
           destruct (AuthStore.isAuthenticated (authStore p))|].
      + constructor; [|constructor].
        split; [done|]. split; [done|]. by left. }
  destruct (str_eqb (Msg.type m) (lit "message")).
  { split; [done|]. exists []. split; [by rewrite app_nil_r|].
    split; [simpl; lia|constructor]. }
  destruct (str_eqb (Msg.type m) (lit "response")).
  - destruct (or_bool (Msg.has_references m) false).
    + split; [done|]. eexists [_]. split; [reflexivity|].
      split; [simpl; lia|]. constructor; [|constructor].
      split; [done|]. split; [done|].
      right. cbn [ChatMessage.references].
      by rewrite parseReferences_no_citation.
    + split; [done|]. eexists [_]. split; [reflexivity|].
      split; [simpl; lia|]. constructor; [|constructor].
      split; [done|]. split; [done|]. by left.
  - split; [done|]. exists []. split; [by rewrite app_nil_r|].
    split; [simpl; lia|constructor].
Qed.

(** X23: a [response] frame is shown as one message of the assistant.
    When the frame announces references, the text shown is the content
    up to the first line with the marker, it never contains the marker,
    and the references shown are empty; otherwise the text is the content
    as it is. *)
Theorem response_is_shown m out p :
  Msg.type m = lit "response" ->
  let content := or_str (Msg.content m) [] in
  let time := if truthy (Msg.timestamp m) then parseDate out (Msg.timestamp m)
              else date (stamp out) in
  let p' := handleWebSocketMessage m out p in
  (Msg.has_references m = Some true ->
   messages (ChatPage.chatStore p') =
     messages (ChatPage.chatStore p)
     ++ [shown (text (parseReferences content)) ai time (Some true) (Some [])
           out]
   /\ checkHasReferences (text (parseReferences content)) = false
   /\ exists rest, content = text (parseReferences content) ++ rest)
  /\ (Msg.has_references m <> Some true ->
      messages (ChatPage.chatStore p') =
        messages (ChatPage.chatStore p) ++ [shown content ai time None None out]).
Proof.
  intros Hty. cbv zeta. unfold handleWebSocketMessage. rewrite Hty.
  change (str_eqb (lit "response") (lit "connected")) with false.
  change (str_eqb (lit "response") (lit "message")) with false.
  rewrite str_eqb_refl. cbn [negb]. split.
  - intros ->. cbn [or_bool]. cbv zeta. rewrite parseReferences_no_citation.
    split; [reflexivity|split].
    + apply visible_text_clean.
    + destruct (beforeMarker_prefix
                  (split LF (or_str (Msg.content m) []))) as [rest Hrest].
      destruct (join_app_prefix [LF]
                  (beforeMarker (split LF (or_str (Msg.content m) []))) rest)
        as [tail Htail].
      exists tail. rewrite parseReferences_text, <- Htail, <- Hrest.
      by rewrite join_split.
  - intros Hne.
    assert (or_bool (Msg.has_references m) false = false) as ->
      by (by destruct (Msg.has_references m) as [[]|]).
    reflexivity.
Qed.

Lemma response_is_shown_witness :
  let m := Msg.mk (lit "response")
             (Some (lit "answer" ++ [LF] ++ marker ++ [LF] ++ lit "1. doc.pdf"))
             None None (lit "2024") (Some true) None None None None None None in
  let out := {| stamp := {| freshId := lit "id"; date := 7 |};
                parseDate := fun _ => 9 |} in
  let p := mkPage
             {| streamingMessageId := None; currentStreamContent := [];
                isStreamComplete := false; ChatInterface.isTyping := true;
                ChatInterface.chatStore := ChatStore.empty |}
             [] connected true SessionsStore.initial
             {| AuthStore.token := None; AuthStore.username := None |} [] [] in
  messages (ChatPage.chatStore (handleWebSocketMessage m out p)) =
    [shown (lit "answer") ai 9 (Some true) (Some []) out].
Proof.
  intros m out p.
  destruct (response_is_shown m out p eq_refl) as [H _].
  destruct (H eq_refl) as (Hm & _ & _). rewrite Hm.
  vm_compute. reflexivity.
Defined.

(** X24: [sendMessage] of the component does nothing when the trimmed
    input is empty, a message is being sent, or the component was not
    told that the connection is open.  Otherwise the trimmed input is
    appended to the store as a message of the user, the input is emptied
    and the sending flag is set, whether or not the manager could hand
    the message to its socket; the typing flag tells whether it could:
    the envelope is sent exactly when the socket is open and [send] does
    not throw. *)
Theorem send_shows_message out p w :
  (canSend p = false -> ChatPage.sendMessage out (p, w) = (p, w))
  /\ (canSend p = true ->
      let '(p', w') := ChatPage.sendMessage out (p, w) in
      let sent := Websocket.isConnected w && negb (sendThrows w) in
      messages (ChatPage.chatStore p') =
        messages (ChatPage.chatStore p)
        ++ [shown (JsText.trim (inputMessage p)) user (date (stamp out))
              None None out]
      /\ inputMessage p' = []
      /\ isSending p' = true
      /\ ChatPage.isTyping p' = sent
      /\ trace w' =
           trace w
           ++ (if sent
               then [SocketSend (envelope (JsText.trim (inputMessage p)) w)]
               else [])).
Proof.
  unfold canSend, ChatPage.sendMessage. split.
  - intros Hc.
    destruct (truthy (JsText.trim (inputMessage p))), (isSending p),
      (ChatPage.isConnected p); done.
  - intros Hc. apply andb_true_iff in Hc as [Hc H3].
    apply andb_true_iff in Hc as [H1 H2]. apply negb_true_iff in H2.
    rewrite H1, H2, H3. cbn [negb orb].
    unfold Websocket.sendMessage, socketSend.
    fold (envelope (JsText.trim (inputMessage p)) w).
    destruct (Websocket.isConnected w); cbn [negb andb].
    + destruct (sendThrows w); cbn [negb].
      * repeat split. by rewrite app_nil_r.
      * repeat split.
    + repeat split. by rewrite app_nil_r.
Qed.

Lemma send_shows_message_witness :
  let out := {| stamp := {| freshId := lit "id"; date := 7 |};
                parseDate := fun _ => 9 |} in
  let p := mkPage
             {| streamingMessageId := None; currentStreamContent := [];
                isStreamComplete := false; ChatInterface.isTyping := false;
                ChatInterface.chatStore := ChatStore.empty |}
             (lit "  hi  ") connected false SessionsStore.initial
             {| AuthStore.token := None; AuthStore.username := None |} [] [] in
  let '(p', w') := ChatPage.sendMessage out (p, initial [] []) in
  messages (ChatPage.chatStore p') = [shown (lit "hi") user 7 None None out]
  /\ isSending p' = true /\ ChatPage.isTyping p' = false /\ trace w' = [].
Proof.
  intros out p.
  pose proof (proj2 (send_shows_message out p (initial [] [])) eq_refl) as H.
  destruct (ChatPage.sendMessage out (p, initial [] [])) as [p' w'].
  destruct H as (Hm & _ & Hs & Ht & Htr).
  split; [by rewrite Hm|]. split; [done|]. split; [by rewrite Ht|by rewrite Htr].
Defined.

(** X25: [handleLogout] forgets the user and the sessions, but not the
    conversation, and drops the socket of the manager: the manager has no
    socket, no reconnection timer is referenced and the attempt counter is
    0, but it keeps its token; the token of the user is gone and the
    session list is empty; the chat store is as it was.  This holds
    however the handler ends: its last call, [authStore.logout()], clears
    the state and then throws exactly when [useRouter()] gave it no
    router. *)
Theorem logout_keeps_messages router p w :
  let '((p', w'), ended) := handleLogout router (p, w) in
  ws w' = None
  /\ reconnectTimer w' = None
  /\ reconnectAttempts w' = 0
  /\ Websocket.token w' = Websocket.token w
  /\ AuthStore.isAuthenticated (authStore p') = false
  /\ SessionsStore.sessions (sessionsStore p') = []
  /\ SessionsStore.currentSessionId (sessionsStore p') = None
  /\ ChatPage.chatStore p' = ChatPage.chatStore p
  /\ (ended = Thrown <-> router = None).
Proof.
  unfold handleLogout, AuthStore.logout.
  destruct (disconnect_quiet w) as (_ & Ha & Hr & _).
  assert (ws (disconnect w) = None
          /\ Websocket.token (disconnect w) = Websocket.token w) as [Hws Htok].
  { unfold disconnect, stopReconnect, stopHeartbeat, clearTimeout, updateStatus.
    destruct (reconnectTimer w) eqn:E1; wsimpl;
      destruct (heartbeatTimer w) eqn:E2; wsimpl; rewrite ?E2; wsimpl;
      destruct (ws w) eqn:E3; wsimpl; by rewrite ?E3. }
  destruct router as [r|]; repeat split; try done.
Qed.

End ChatPageFacts.

(** ** Trimming, and the login form *)

Section LoginFacts.
Import JsString JsText LoginPage.

Lemma trimStart_spaces pre s :
  Forall (fun c => isSpace c = true) pre -> trimStart (pre ++ s) = trimStart s.
Proof.
  induction 1 as [|c pre Hc _ IH]; [done|]. cbn [app trimStart]. by rewrite Hc.
Qed.

Lemma trimStart_blank s :
  Forall (fun c => isSpace c = true) s -> trimStart s = [].
Proof.
  intros H. rewrite <- (app_nil_r s). by rewrite trimStart_spaces.
Qed.

Lemma trimStart_empty s :
  trimStart s = [] -> Forall (fun c => isSpace c = true) s.
Proof.
  induction s as [|c s IH]; [constructor|]. cbn [trimStart].
  destruct (isSpace c) eqn:E; [|done]. intros H. constructor; [done|by apply IH].
Qed.

Lemma trimStart_app s post :
  trimStart s <> [] -> trimStart (s ++ post) = trimStart s ++ post.
Proof.
  induction s as [|c s IH]; [done|]. cbn [app trimStart].
  destruct (isSpace c); [apply IH|done].
Qed.

Lemma trimEnd_spaces s post :
  Forall (fun c => isSpace c = true) post -> trimEnd (s ++ post) = trimEnd s.
Proof.
  intros H. unfold trimEnd. rewrite rev_app_distr, trimStart_spaces; [done|].
  apply List.Forall_forall. intros c Hc. apply in_rev in Hc.
  by apply (proj1 (List.Forall_forall _ _) H).
Qed.

(** White space around a string does not change what [trim] returns. *)
Lemma trim_surrounded pre u post :
  Forall (fun c => isSpace c = true) pre ->
  Forall (fun c => isSpace c = true) post ->
  trim (pre ++ u ++ post) = trim u.
Proof.
  intros Hpre Hpost. unfold trim. rewrite trimStart_spaces by done.
  destruct (trimStart u) as [|c r] eqn:E.
  - rewrite trimStart_blank; [done|].
    apply Forall_app. split; [by apply trimStart_empty|done].
  - rewrite trimStart_app by (by rewrite E). rewrite E.
    by apply trimEnd_spaces.
Qed.

(** X26: [validateForm] judges the trimmed user name: white space before
    and after the name changes neither the verdict nor the alert; a name
    is accepted exactly when its trimmed form has 2 to 20 code units, and
    a name of white space only is rejected as missing. *)
Theorem validateForm_trims pre u post :
  Forall (fun c => isSpace c = true) pre ->
  Forall (fun c => isSpace c = true) post ->
  validateForm (pre ++ u ++ post) = validateForm u
  /\ (fst (validateForm u) = true <->
      (2 <= length (trim u) <= 20)%nat)
  /\ (Forall (fun c => isSpace c = true) u ->
      validateForm u = (false, Some enterUsername)).
Proof.
  intros Hpre Hpost. split; [|split].
  - unfold validateForm. by rewrite trim_surrounded.
  - unfold validateForm. destruct (trim u) as [|c r] eqn:E; cbn [truthy negb].
    + simpl. split; [done|lia].
    + destruct (Nat.ltb_spec (length (c :: r)) 2),
        (Nat.ltb_spec 20 (length (c :: r))); cbn [orb fst]; split; try done; lia.
  - intros Hu. unfold validateForm, trim. by rewrite trimStart_blank.
Qed.

Lemma validateForm_trims_witness :
  validateForm (lit "  " ++ lit "alice" ++ lit " ") = (true, None).
Proof.
  rewrite (proj1 (validateForm_trims (lit "  ") (lit "alice") (lit " ")
                    ltac:(repeat constructor) ltac:(repeat constructor))).
  vm_compute. reflexivity.
Defined.

End LoginFacts.

(** ** The knowledge-base component *)

Section KnowledgeFacts.
Import JsString Knowledge.

Lemma removeId_absent chunkId l : ~ In chunkId l -> removeId chunkId l = None.
Proof.
  induction l as [|x l IH]; intros Hno; [done|]. cbn [removeId].
  case_bool_decide as E; [destruct Hno; by left|].
  rewrite IH; [done|]. intros H. apply Hno. by right.
Qed.

Lemma removeId_present chunkId l :
  In chunkId l ->
  exists pre post,
    l = pre ++ chunkId :: post /\ removeId chunkId l = Some (pre ++ post)
    /\ ~ In chunkId pre.
Proof.
  induction l as [|x l IH]; intros Hin; [destruct Hin|]. cbn [removeId].
  case_bool_decide as E.
  - subst x. exists [], l. repeat split; try done. intros [].
  - destruct Hin as [Hx|Hin]; [done|].
    destruct (IH Hin) as (pre & post & -> & -> & Hpre).
    exists (x :: pre), post. repeat split; try done.
    intros [H|H]; [done|by apply Hpre].
Qed.

Lemma removeId_last chunkId l :
  ~ In chunkId l -> removeId chunkId (l ++ [chunkId]) = Some l.
Proof.
  induction l as [|x l IH]; intros Hno; cbn [app removeId].
  - by rewrite bool_decide_eq_true_2.
  - case_bool_decide as E; [destruct Hno; by left|].
    rewrite IH; [done|]. intros H. apply Hno. by right.
Qed.

Lemma NoDup_snoc {A} (c : A) l :
  List.NoDup l -> ~ In c l -> List.NoDup (l ++ [c]).
Proof.
  induction 1 as [|x l Hx Hnd IH]; intros Hc; cbn [app].
  - constructor; [intros []|constructor].
  - constructor.
    + rewrite in_app_iff. intros [H|[H|[]]]; [done|]. apply Hc. by left.
    + apply IH. intros H. apply Hc. by right.
Qed.

(** X27: [toggleChunkSelection] toggles one chunk and no other: in a
    selection without duplicates the chunk is selected afterwards exactly
    when it was not before, every other chunk keeps its state, the
    selection stays without duplicates, and selecting then unselecting a
    chunk gives the selection back. *)
Theorem toggle_selection chunkId st :
  List.NoDup (selectedChunks st) ->
  let st' := toggleChunkSelection chunkId st in
  List.NoDup (selectedChunks st')
  /\ (In chunkId (selectedChunks st') <-> ~ In chunkId (selectedChunks st))
  /\ (forall x, x <> chunkId ->
        (In x (selectedChunks st') <-> In x (selectedChunks st)))
  /\ (~ In chunkId (selectedChunks st) ->
      selectedChunks (toggleChunkSelection chunkId st') = selectedChunks st)
  /\ shown st' = shown st.
Proof.
  intros Hnd. cbv zeta.
  assert (forall s0, selectedChunks (toggleChunkSelection chunkId s0) =
            match removeId chunkId (selectedChunks s0) with
            | Some rest => rest
            | None => selectedChunks s0 ++ [chunkId]
            end) as Hsel by done.
  rewrite !Hsel.
  destruct (in_dec (fun a b => decide (a = b)) chunkId (selectedChunks st))
    as [Hin|Hno].
  - destruct (removeId_present chunkId _ Hin) as (pre & post & Hl & -> & Hpre).
    rewrite Hl in Hnd |- *. pose proof (NoDup_remove_1 _ _ _ Hnd) as Hnd'.
    pose proof (NoDup_remove_2 _ _ _ Hnd) as Hgone.
    split; [done|]. split; [|split; [|split; [|done]]].
    + split; [done|]. intros Hno. destruct Hno.
      apply in_or_app. right. by left.
    + intros x Hx. rewrite !in_app_iff. cbn [In]. split.
      * intros [H|H]; [by left|right; by right].
      * intros [H|[H|H]]; [by left|congruence|by right].
    + intros Hno. destruct Hno. apply in_or_app. right. by left.
  - rewrite removeId_absent by done.
    split; [|split; [|split; [|split; [|done]]]].
    + by apply NoDup_snoc.
    + split; [done|]. intros _. apply in_or_app. right. by left.
    + intros x Hx. rewrite in_app_iff. cbn [In]. split.
      * intros [H|[H|[]]]; [done|congruence].
      * intros H. by left.
    + intros _. by rewrite removeId_last.
Qed.

Lemma toggle_selection_witness :
  let st := {| shown := []; selectedChunks := [lit "a"; lit "b"];
               selectAllChunks := false |} in
  selectedChunks
    (toggleChunkSelection (lit "c") (toggleChunkSelection (lit "c") st)) =
    [lit "a"; lit "b"].
Proof.
  intros st.
  refine (proj1 (proj2 (proj2 (proj2
            (toggle_selection (lit "c") st _)))) _).
  - repeat constructor; vm_compute; intros H;
      repeat (destruct H as [H|H]; [discriminate H|]); done.
  - vm_compute. intros H.
    repeat (destruct H as [H|H]; [discriminate H|]). done.
Defined.

(** X28: the "all selected" flag that [toggleChunkSelection] computes by
    comparing lengths is right when the selection has no duplicates and
    names only chunks that are shown, and the chunks shown have distinct
    identifiers: it is set exactly when there are chunks and all of them
    are selected. *)
Theorem select_all_flag chunkId st :
  let st' := toggleChunkSelection chunkId st in
  List.NoDup (selectedChunks st') ->
  incl (selectedChunks st') (map id (shown st)) ->
  List.NoDup (map id (shown st)) ->
  (selectAllChunks st' = true <->
   shown st <> [] /\ incl (map id (shown st)) (selectedChunks st')).
Proof.
  cbv zeta. intros Hnd Hincl Hids.
  unfold toggleChunkSelection at 1. cbn [selectAllChunks].
  fold (selectedChunks (toggleChunkSelection chunkId st)).
  rewrite andb_true_iff, Nat.eqb_eq, Nat.ltb_lt.
  rewrite <- (length_map id (shown st)). split.
  - intros [Hlen Hpos]. split.
    + intros Hnil. rewrite Hnil in Hpos. simpl in Hpos. lia.
    + apply NoDup_length_incl;
        [done|apply Nat.eq_le_incl; symmetry; exact Hlen|done].
  - intros [Hne Hall]. split.
    + apply Nat.le_antisymm; [exact (NoDup_incl_length Hnd Hincl)
                            |exact (NoDup_incl_length Hids Hall)].
    + rewrite length_map. destruct (shown st); [done|simpl; lia].
Qed.

Lemma select_all_flag_witness :
  let c := {| id := lit "a"; page_content := []; source := lit "f";
              file_type := None; section := None; headers := [];
              chunk_index := 0; total_chunks := None; processed_at := None;
              content_length := None |} in
  let st := {| shown := [c]; selectedChunks := []; selectAllChunks := false |} in
  selectAllChunks (toggleChunkSelection (lit "a") st) = true.
Proof.
  intros c st.
  apply (select_all_flag (lit "a") st).
  - repeat constructor. intros [].
  - intros x [<-|[]]. by left.
  - repeat constructor. intros [].
  - split; [done|]. intros x [<-|[]]. by left.
Defined.

End KnowledgeFacts.

(** ** The knowledge-base component: points grouped into files *)

Section GroupingFacts.
Import JsString Knowledge.

Lemma pushChunk_names_old src ext c files :
  In src (map name files) ->
  map name (pushChunk src ext c files) = map name files.
Proof.
  induction files as [|f rest IH]; cbn [pushChunk map]; [intros []|].
  intros Hin. case_bool_decide as E; cbn [map name]; [done|].
  f_equal. apply IH. by destruct Hin.
Qed.

Lemma pushChunk_names_new src ext c files :
  ~ In src (map name files) ->
  map name (pushChunk src ext c files) = map name files ++ [src].
Proof.
  induction files as [|f rest IH]; cbn [pushChunk map app]; [done|].
  intros Hin. case_bool_decide as E; cbn [map name].
  - destruct Hin. by left.
  - f_equal. apply IH. intros H. apply Hin. by right.
Qed.

Lemma pushChunk_NoDup src ext c files :
  List.NoDup (map name files) ->
  List.NoDup (map name (pushChunk src ext c files)).
Proof.
  intros Hnd.
  destruct (in_dec (fun a b : jsstring => decide (a = b)) src (map name files))
    as [Hin|Hin].
  - by rewrite pushChunk_names_old.
  - rewrite pushChunk_names_new by done. by apply NoDup_snoc.
Qed.

Lemma pushChunk_perm src ext c files :
  Permutation (concat (map chunks (pushChunk src ext c files)))
    (concat (map chunks files) ++ [c]).
Proof.
  induction files as [|f rest IH]; cbn [pushChunk map concat app].
  - by rewrite app_nil_r.
  - case_bool_decide as E; cbn [map concat chunks].
    + rewrite <- !app_assoc. apply Permutation_app_head.
      apply Permutation_app_comm.
    + rewrite <- app_assoc. by apply Permutation_app_head.
Qed.

Lemma pushChunk_own src ext c files :
  source c = src -> Forall ownChunks files ->
  Forall ownChunks (pushChunk src ext c files).
Proof.
  intros Hc. induction 1 as [|f rest [Hne Hsrc] Hrest IH]; cbn [pushChunk].
  - constructor; [|constructor]. split; [done|]. by constructor.
  - case_bool_decide as E.
    + constructor; [|done]. split; cbn [chunks name].
      * by destruct (chunks f).
      * apply Forall_app. split; [done|].
        constructor; [congruence|constructor].
    + constructor; [by split|done].
Qed.

(** The loop over the points, from any files collected so far. *)
Lemma collect_points lower points : forall files,
  List.NoDup (map name files) -> Forall ownChunks files ->
  let collected :=
    fold_left
      (fun files p =>
         pushChunk (sourceOf p) (extensionOf lower (sourceOf p)) (chunkOf p)
           files)
      points files in
  List.NoDup (map name collected)
  /\ Forall ownChunks collected
  /\ Permutation (concat (map chunks collected))
       (concat (map chunks files) ++ map chunkOf points).
Proof.
  induction points as [|p points IH]; intros files Hnd Hown; cbv zeta.
  - cbn [fold_left map]. by rewrite app_nil_r.
  - cbn [fold_left map].
    destruct (IH (pushChunk (sourceOf p) (extensionOf lower (sourceOf p))
                    (chunkOf p) files)) as (H1 & H2 & H3).
    + by apply pushChunk_NoDup.
    + by apply pushChunk_own.
    + split; [done|]. split; [done|]. cbv zeta in H3. rewrite H3.
      rewrite pushChunk_perm, <- app_assoc. done.
Qed.

Lemma insertChunk_perm c l : Permutation (insertChunk c l) (c :: l).
Proof.
  induction l as [|x l IH]; cbn [insertChunk]; [done|].
  destruct (Z.leb (chunk_index c) (chunk_index x)); [done|].
  rewrite IH. apply perm_swap.
Qed.

Lemma sortChunks_perm l : Permutation (sortChunks l) l.
Proof.
  induction l as [|c l IH]; cbn [sortChunks]; [done|].
  by rewrite insertChunk_perm, IH.
Qed.

Lemma insertChunk_sorted c l :
  StronglySorted byIndex l -> StronglySorted byIndex (insertChunk c l).
Proof.
  induction 1 as [|x l Hs IH Hx]; cbn [insertChunk].
  - repeat constructor.
  - destruct (Z.leb_spec (chunk_index c) (chunk_index x)) as [Hle|Hgt].
    + constructor; [by constructor|]. constructor; [done|].
      eapply List.Forall_impl; [|exact Hx]. unfold byIndex. intros y Hy. lia.
    + constructor; [done|].
      apply (Permutation_Forall (Permutation_sym (insertChunk_perm c l))).
      constructor; [unfold byIndex; lia|done].
Qed.

Lemma sortChunks_sorted l : StronglySorted byIndex (sortChunks l).
Proof.
  induction l as [|c l IH]; cbn [sortChunks]; [constructor|].
  by apply insertChunk_sorted.
Qed.

(** X29: the files that [loadFilesByCollection] builds from the points of
    an answer: every source appears as one file, none twice; every file
    has at least one chunk, only chunks of its own source, in the order
    of their index; and the chunks of all files together are the chunks
    of the points, none lost and none twice. *)
Theorem files_group_points lower points :
  let files := groupPoints lower points in
  List.NoDup (map name files)
  /\ Forall (fun f => ownChunks f /\ StronglySorted byIndex (chunks f)) files
  /\ Permutation (concat (map chunks files)) (map chunkOf points)
  /\ (forall p, In p points -> In (sourceOf p) (map name files)).
Proof.
  cbv zeta. unfold groupPoints.
  destruct (collect_points lower points [] ltac:(constructor) ltac:(constructor))
    as (Hnd & Hown & Hperm).
  cbv zeta in *. set (collected := fold_left _ points []) in *.
  cbn [map concat app] in Hperm.
  assert (map name
            (map (fun f => {| name := name f; extension := extension f;
                              chunks := sortChunks (chunks f) |}) collected)
          = map name collected) as Hnames.
  { rewrite map_map. by apply map_ext. }
  assert (Permutation
            (concat (map chunks
               (map (fun f => {| name := name f; extension := extension f;
                                 chunks := sortChunks (chunks f) |}) collected)))
            (concat (map chunks collected))) as Hsorted.
  { clear. induction collected as [|f rest IH]; cbn [map concat chunks]; [done|].
    by rewrite sortChunks_perm, IH. }
  split; [by rewrite Hnames|]. split; [|split].
  - apply List.Forall_forall. intros f Hf.
    apply in_map_iff in Hf as (f0 & <- & Hf0).
    destruct (proj1 (List.Forall_forall _ _) Hown f0 Hf0) as [Hne Hsrc].
    cbn [chunks name]. split; [split|].
    + intros Hnil. cbn [chunks] in Hnil.
      pose proof (sortChunks_perm (chunks f0)) as Hp.
      rewrite Hnil in Hp. apply Permutation_nil in Hp. done.
    + apply (Permutation_Forall (Permutation_sym (sortChunks_perm _))). done.
    + apply sortChunks_sorted.
  - by rewrite Hsorted.
  - intros p Hp. rewrite Hnames.
    assert (In (chunkOf p) (concat (map chunks collected))) as Hin.
    { eapply Permutation_in; [symmetry; exact Hperm|]. by apply in_map. }
    apply in_concat in Hin as (cs & Hcs & Hc).
    apply in_map_iff in Hcs as (f & <- & Hf).
    destruct (proj1 (List.Forall_forall _ _) Hown f Hf) as [_ Hsrc].
    apply in_map_iff. exists f. split; [|done].
    symmetry. exact (proj1 (List.Forall_forall _ _) Hsrc _ Hc).
Qed.

End GroupingFacts.
